(** * sgagraph: the graph state and derivation engine

    A shallow embedding of [src/components/constellations/data.ts] and of the
    proof-mode and live-replay actions of [src/components/ConstellationsGraph.tsx].

    Conventions of the embedding.
    - A JavaScript string is a [string] of 8-bit characters.  The embedding is
      exact on ASCII text, which is what ids, labels and dependency tags are;
      a statement about every input of [toUpperCase] assumes
      [JsString.isAscii].
    - A JavaScript number that holds a line, a column, a depth or a label
      segment is a [Z].  Doubles hold the integers of magnitude up to [2^53],
      and their differences, exactly; a statement about the values of label
      segments assumes [safeInteger].
    - [Map<string, V>] is [gmap string V], [Set<string>] is [gset string].
    - An optional field ([undefined] or [null]) is an [option].
    - [String.prototype.localeCompare] depends on the host's collation; it is
      a parameter of every definition that reaches it. *)

From stdpp Require Import gmap strings list fin_maps pretty sorting.
From Stdlib Require Import Ascii ZArith Lia.
From Stdlib Require String.

(** ** Strings *)

Module JsString.

Definition code (c : ascii) : nat := nat_of_ascii c.

(** The text is ASCII: every character code is below 128. *)
Definition isAscii (s : string) : bool :=
  forallb (fun c => (code c <? 128)%nat) (String.list_ascii_of_string s).

(** [toUpperCase] on one ASCII character. *)
Definition upperChar (c : ascii) : ascii :=
  if (97 <=? code c)%nat && (code c <=? 122)%nat
  then ascii_of_nat (code c - 32) else c.

(** [String.prototype.toUpperCase] on ASCII text.  Outside ASCII the host
    follows the Unicode case mappings, under which other characters become
    ASCII letters too (the dotless i becomes I); such text is outside
    [isAscii] and outside this definition. *)
Fixpoint toUpperCase (s : string) : string :=
  match s with
  | EmptyString => EmptyString
  | String c rest => String (upperChar c) (toUpperCase rest)
  end.

(** White space as [trim] and the regular expression class [\s] see it
    (tab, line feed, vertical tab, form feed, carriage return, space). *)
Definition isSpace (c : ascii) : bool :=
  ((9 <=? code c)%nat && (code c <=? 13)%nat) || (code c =? 32)%nat.

(** The characters the regular expression [.] refuses. *)
Definition isLineTerminator (c : ascii) : bool :=
  (code c =? 10)%nat || (code c =? 13)%nat.

Definition isDigit (c : ascii) : bool :=
  (48 <=? code c)%nat && (code c <=? 57)%nat.

Definition digitValue (c : ascii) : Z := Z.of_nat (code c - 48).

Fixpoint dropSpaces (cs : list ascii) : list ascii :=
  match cs with
  | c :: rest => if isSpace c then dropSpaces rest else cs
  | [] => []
  end.

Definition chars (s : string) : list ascii := String.list_ascii_of_string s.
Definition ofChars (cs : list ascii) : string := String.string_of_list_ascii cs.

(** [String.prototype.trim]. *)
Definition trim (s : string) : string :=
  ofChars (rev (dropSpaces (rev (dropSpaces (chars s))))).

(** [String.prototype.startsWith]. *)
Fixpoint startsWith (needle hay : string) : bool :=
  match needle, hay with
  | EmptyString, _ => true
  | String _ _, EmptyString => false
  | String a needle', String b hay' => Ascii.eqb a b && startsWith needle' hay'
  end.

(** [String.prototype.includes]. *)
Fixpoint includes (needle hay : string) : bool :=
  startsWith needle hay ||
  match hay with
  | EmptyString => false
  | String _ rest => includes needle rest
  end.

(** A string is truthy when it is not empty. *)
Definition nonEmpty (s : string) : bool :=
  match s with EmptyString => false | String _ _ => true end.

(** Truthiness of an optional string field. *)
Definition truthy (x : option string) : bool :=
  match x with Some s => nonEmpty s | None => false end.

(** [x || y] on optional strings. *)
Definition or (x y : option string) : option string :=
  if truthy x then x else y.

End JsString.

(** ** Ordering module: [romanToInt] *)

(** The table [map] of [romanToInt]; a key that is not in the table reads as
    [undefined], which [?? 0] turns into 0. *)
Definition romanValue (c : ascii) : Z :=
  if Ascii.eqb c "I"%char then 1
  else if Ascii.eqb c "V"%char then 5
  else if Ascii.eqb c "X"%char then 10
  else if Ascii.eqb c "L"%char then 50
  else if Ascii.eqb c "C"%char then 100
  else if Ascii.eqb c "D"%char then 500
  else if Ascii.eqb c "M"%char then 1000
  else 0.

(** The value of [map[s[i + 1]] ?? 0]: past the end the index reads
    [undefined]. *)
Definition nextValue (rest : string) : Z :=
  match rest with
  | EmptyString => 0
  | String d _ => romanValue d
  end.

(** The loop of [romanToInt] from index [i] on, [s] being the suffix that
    starts at [i] and [out] the accumulator. *)
Fixpoint romanLoop (s : string) (out : Z) : Z :=
  match s with
  | EmptyString => out
  | String c rest =>
      let cur := romanValue c in
      let next := nextValue rest in
      romanLoop rest (if (cur <? next)%Z then (out - cur)%Z else (out + cur)%Z)
  end.

Definition romanToInt (roman : string) : Z :=
  let s := JsString.toUpperCase roman in
  let out := romanLoop s 0 in
  if (out =? 0)%Z then 0%Z else out.

(** ** EdgeKey *)

Definition edgeKey (s t : string) : string :=
  String.append s (String.append "=>" t).

(** ** Data model *)

(** [position] of a node: each field is there only when
    [typeof ... === 'number']. *)
Record Position := mkPosition {
  line_start : option Z;
  col_start : option Z
}.

(** [ConstellationNode], with the fields the engine reads or writes. *)
Module Node.
Record t := mk {
  id : string;
  type : string;
  label : option string;
  position : option Position;
  orderIndex : option Z
}.

Definition set_orderIndex (i : Z) (n : t) : t :=
  mk (id n) (type n) (label n) (position n) (Some i).
End Node.

(** An endpoint of an edge is a node id, or (once the force layout has
    resolved it) the node object itself. *)
Inductive Endpoint :=
  | EndId (s : string)
  | EndObj (n : Node.t).

(** [typeof e.source === 'object' ? e.source.id : e.source]. *)
Definition endpointId (p : Endpoint) : string :=
  match p with
  | EndId s => s
  | EndObj n => Node.id n
  end.

(** [ConstellationEdge] as the raw payload carries it; [referenceType] is the
    camel-case spelling that [processGraphData] also reads. *)
Module Edge.
Record t := mk {
  source : Endpoint;
  target : Endpoint;
  dependency_type : option string;
  reference_type : option string;
  referenceType : option string;
  type : option string;
  context : option string
}.

(** [{ ...e, dependency_type: d }]. *)
Definition relabel (d : string) (e : t) : t :=
  mk (source e) (target e) (Some d)
     (reference_type e) (referenceType e) (type e) (context e).

(** [{ ...e, dependency_type: d, source: e.target, target: e.source }]. *)
Definition flip (d : string) (e : t) : t :=
  mk (target e) (source e) (Some d)
     (reference_type e) (referenceType e) (type e) (context e).
End Edge.

(** ** Edge semantics normalizer (the callback of [edges.map]) *)

(** [e.dependency_type || 'internal']. *)
Definition depOf (e : Edge.t) : string :=
  match JsString.or (Edge.dependency_type e) (Some "internal") with
  | Some d => d
  | None => "internal"
  end.

(** [e.reference_type || e.referenceType || null]. *)
Definition refOf (e : Edge.t) : option string :=
  JsString.or (JsString.or (Edge.reference_type e) (Edge.referenceType e)) None.

(** [e.type || null]. *)
Definition typOf (e : Edge.t) : option string :=
  JsString.or (Edge.type e) None.

(** [x === s] for an optional string [x]. *)
Definition isStr (x : option string) (s : string) : bool :=
  match x with
  | Some y => String.eqb y s
  | None => false
  end.

Definition normalizeEdge (e : Edge.t) : option Edge.t :=
  let dep := depOf e in
  let ref := refOf e in
  let typ := typOf e in
  if String.eqb dep "used_in" then Some (Edge.relabel "used_in" e)
  else if String.eqb dep "uses_result" || String.eqb dep "uses_definition"
          || String.eqb dep "is_corollary_of"
  then Some (Edge.flip "used_in" e)
  else if String.eqb dep "is_generalization_of" || String.eqb dep "generalized_by"
  then Some (Edge.flip "generalized_by" e)
  else if String.eqb dep "internal" && (isStr ref "internal" || isStr typ "internal")
  then Some (Edge.flip "internal" e)
  else if String.eqb dep "provides_remark" then None
  else Some e.

(** [(graphData.edges || []).map(...).filter(Boolean)]. *)
Definition normalizeEdges (edges : list Edge.t) : list Edge.t :=
  omap normalizeEdge edges.

(** The table of section 4.1 read literally, for comparison with
    [normalizeEdge]: the tag defaults to internal when the field is absent,
    and the classifier of the internal rule is [reference_type] or [type]. *)
Definition table_4_1 (e : Edge.t) : option Edge.t :=
  let dep := default "internal" (Edge.dependency_type e) in
  if String.eqb dep "used_in" then Some e
  else if String.eqb dep "uses_result" || String.eqb dep "uses_definition"
          || String.eqb dep "is_corollary_of"
  then Some (Edge.flip "used_in" e)
  else if String.eqb dep "is_generalization_of" || String.eqb dep "generalized_by"
  then Some (Edge.flip "generalized_by" e)
  else if String.eqb dep "internal"
          && (isStr (Edge.reference_type e) "internal" || isStr (Edge.type e) "internal")
  then Some (Edge.flip "internal" e)
  else if String.eqb dep "provides_remark" then None
  else Some e.

(** ** Ordering module: label keys and comparators *)

(** An element of the array [labelSortKey] returns. *)
Inductive KeyPart :=
  | KNum (n : Z)
  | KStr (s : string).

(** [String(v)] on a key element. *)
Definition keyString (v : KeyPart) : string :=
  match v with
  | KNum n => pretty n
  | KStr s => s
  end.

(** The class [[IVXLCDM]] under the [i] flag. *)
Definition isRomanLetter (c : ascii) : bool :=
  negb (romanValue (JsString.upperChar c) =? 0)%Z.

(** The longest prefix of roman letters, and what follows it. *)
Fixpoint spanRoman (cs : list ascii) : list ascii * list ascii :=
  match cs with
  | c :: rest =>
      if isRomanLetter c
      then let '(r, k) := spanRoman rest in (c :: r, k)
      else ([], cs)
  | [] => ([], [])
  end.

(** The integers a double holds exactly, together with their differences. *)
Definition safeInteger (z : Z) : Prop := (Z.abs z < 2 ^ 53)%Z.

(** [rest.split(/[^0-9]+/).map(trim).filter(Boolean).map(Number)]: the
    maximal runs of digits of [cs], each read in base ten.  [cur] is the run
    being read, if any.  [Number] rounds to the nearest double, so the value
    is the one of the code for a run that is a [safeInteger]. *)
Fixpoint digitRuns (cs : list ascii) (cur : option Z) : list Z :=
  match cs with
  | [] => match cur with Some n => [n] | None => [] end
  | c :: rest =>
      if JsString.isDigit c
      then digitRuns rest (Some (10 * default 0 cur + JsString.digitValue c))%Z
      else match cur with
           | Some n => n :: digitRuns rest None
           | None => digitRuns rest None
           end
  end.

(** [label.trim().match(re)] for the expression of [labelSortKey]: from the
    start, one or more roman letters (group 1, any case), optional white
    space, a colon, then the rest up to the end (group 2), which holds no
    line terminator.  The three classes are disjoint, so the match is unique.
    The result is the two groups, when the expression matches. *)
Definition matchLabel (label : string) : option (string * list ascii) :=
  match spanRoman (JsString.chars (JsString.trim label)) with
  | ([], _) => None
  | (roman, after) =>
      match JsString.dropSpaces after with
      | c :: rest =>
          if Ascii.eqb c ":"%char && forallb (fun x => negb (JsString.isLineTerminator x)) rest
          then Some (JsString.ofChars roman, rest)
          else None
      | [] => None
      end
  end.

Definition labelSortKey (label : string) : list KeyPart :=
  match matchLabel label with
  | None => [KStr (JsString.trim label)]
  | Some (m1, m2) => KNum (romanToInt m1) :: (KNum <$> digitRuns m2 None)
  end.

(** [Array.prototype.sort(cmp)] on a fresh copy: a stable insertion sort
    that puts [x] before [y] when [cmp x y <= 0] and [x] came first.  For a
    consistent comparator (a total preorder on the elements) the sorted,
    stable result is unique, and this is it.  For an inconsistent comparator
    the host's order is implementation-defined; nothing below reads the
    order of the result off this definition in that case: statements either
    hold for every permutation of the input or assume consistency. *)
Section Sort.
Context {A : Type} (cmp : A → A → Z).

Fixpoint insertBy (x : A) (l : list A) : list A :=
  match l with
  | [] => [x]
  | y :: rest => if (cmp x y <=? 0)%Z then x :: l else y :: insertBy x rest
  end.

Definition sortBy (l : list A) : list A := foldr insertBy [] l.
End Sort.

Section Ordering.
(** [a.localeCompare(b)] of the host. *)
Variable localeCompare : string → string → Z.

(** The loop of [compareLex] from index [i] on: [a] and [b] are what is
    left of the two arrays at [i]; an exhausted array reads [undefined]. *)
Fixpoint compareLex (a b : list KeyPart) : Z :=
  match a, b with
  | [], [] => 0
  | [], _ :: _ => -1
  | _ :: _, [] => 1
  | av :: a', bv :: b' =>
      match av, bv with
      | KNum x, KNum y => if negb (x =? y)%Z then (x - y)%Z else compareLex a' b'
      | _, _ =>
          let as_ := keyString av in
          let bs := keyString bv in
          if negb (String.eqb as_ bs) then localeCompare as_ bs
          else compareLex a' b'
      end
  end.

(** [typeof p?.line_start === 'number' ? p.line_start : null]. *)
Definition lineOf (n : Node.t) : option Z := Node.position n ≫= line_start.
Definition colOf (n : Node.t) : option Z := Node.position n ≫= col_start.

(** [(n.label ?? '').toString().trim()]. *)
Definition labelOf (n : Node.t) : string :=
  JsString.trim (default "" (Node.label n)).

(** [x !== null && y !== null && x !== y], with the difference [x - y]
    that is then returned. *)
Definition bothDiffer (x y : option Z) : option Z :=
  match x, y with
  | Some u, Some v => if negb (u =? v)%Z then Some (u - v)%Z else None
  | _, _ => None
  end.

(** [x === null] on a position field. *)
Definition isNull (x : option Z) : bool :=
  match x with
  | None => true
  | Some _ => false
  end.

Definition compareFirstOccurrence (a b : Node.t) : Z :=
  let aLine := lineOf a in
  let bLine := lineOf b in
  match bothDiffer aLine bLine with
  | Some d => d
  | None =>
      if negb (isNull aLine) && isNull bLine then -1
      else if isNull aLine && negb (isNull bLine) then 1
      else
        let aCol := colOf a in
        let bCol := colOf b in
        match bothDiffer aCol bCol with
        | Some d => d
        | None =>
            let al := labelOf a in
            let bl := labelOf b in
            if JsString.nonEmpty al && JsString.nonEmpty bl
            then compareLex (labelSortKey al) (labelSortKey bl)
            else if JsString.nonEmpty al && negb (JsString.nonEmpty bl) then -1
            else if negb (JsString.nonEmpty al) && JsString.nonEmpty bl then 1
            else localeCompare (Node.id a) (Node.id b)
        end
  end.
End Ordering.

(** ** Graph store: [processGraphData] *)

(** An entry [{ s, t, dep }] of an adjacency index. *)
Module Adj.
Record entry := mk {
  s : string;
  t : string;
  dep : string
}.
End Adj.

Module Graph.
(** [ConstellationGraphData]; an absent array is the empty list, as
    [graphData.nodes || []] and [graphData.edges || []] read it. *)
Record data := mkData {
  dnodes : list Node.t;
  dedges : list Edge.t
}.

(** [ProcessedGraph].  The type and colour partitions are left out: they
    are computed from [nodes] and [edges] after the fields below and
    nothing here reads them. *)
Record processed := mkProcessed {
  nodes : list Node.t;
  edges : list Edge.t;
  nodeById : gmap string Node.t;
  outgoingEdgesBySource : gmap string (list Adj.entry);
  incomingEdgesByTarget : gmap string (list Adj.entry)
}.
End Graph.

(** [if (!m.has(k)) m.set(k, []); m.get(k).push(x)]. *)
Definition pushEntry (k : string) (x : Adj.entry)
    (m : gmap string (list Adj.entry)) : gmap string (list Adj.entry) :=
  <[k := default [] (m !! k) ++ [x]]> m.

(** One round of [edges.forEach] over the pair of indices
    (outgoing, incoming). *)
Definition indexEdge
    (acc : gmap string (list Adj.entry) * gmap string (list Adj.entry)) (e : Edge.t)
    : gmap string (list Adj.entry) * gmap string (list Adj.entry) :=
  let s := endpointId (Edge.source e) in
  let t := endpointId (Edge.target e) in
  let dep := depOf e in
  (pushEntry s (Adj.mk s t dep) acc.1, pushEntry t (Adj.mk s t dep) acc.2).

Definition buildAdjacency (edges : list Edge.t)
    : gmap string (list Adj.entry) * gmap string (list Adj.entry) :=
  foldl indexEdge (∅, ∅) edges.

(** [nodes.forEach((n, i) => n.orderIndex = i + 1)]; the node objects of the
    array are distinct objects. *)
Definition assignOrderIndex (sorted : list Node.t) : list Node.t :=
  imap (λ i n, Node.set_orderIndex (Z.of_nat i + 1) n) sorted.

(** [new Map(nodes.map(n => [n.id, n]))]: a later node with the same id
    overwrites an earlier one. *)
Definition indexNodes (nodes : list Node.t) : gmap string Node.t :=
  foldl (λ m n, <[Node.id n := n]> m) ∅ nodes.

Section ProcessGraphData.
Variable localeCompare : string → string → Z.

Definition processGraphData (graphData : Graph.data) : Graph.processed :=
  let edges := normalizeEdges (Graph.dedges graphData) in
  let nodes :=
    assignOrderIndex
      (sortBy (compareFirstOccurrence localeCompare) (Graph.dnodes graphData)) in
  let adj := buildAdjacency edges in
  Graph.mkProcessed nodes edges (indexNodes nodes) adj.1 adj.2.
End ProcessGraphData.

(** ** Component state *)

(** The long-lived [state] object of the component, with the fields the
    proof-mode and replay actions read or write ([hiddenTypes] and
    [showNodeTypeLabels] only select what is painted). *)
Module State.
Record t := mk {
  pinned : bool;
  pinnedNode : option Node.t;
  proofMode : bool;
  proofTargetId : option string;
  proofDepth : Z;
  proofVisibleNodes : gset string;
  proofVisibleEdges : gset string;
  graphData : Graph.data;
  nodeById : gmap string Node.t;
  incomingEdgesByTarget : gmap string (list Adj.entry)
}.

(** The value [useState] creates the object with, the graph apart. *)
Definition initial (g : Graph.data) (byId : gmap string Node.t)
    (incoming : gmap string (list Adj.entry)) : t :=
  mk false None false None 1 ∅ ∅ g byId incoming.
End State.

(** The record [liveReplayStateRef.current] holds while a replay runs. *)
Module Replay.
Record t := mk {
  ordered : list Node.t;
  edges : list Edge.t;
  visibleNodes : gset string;
  visibleEdges : gset string
}.
End Replay.

(** The component: [state] and the three pieces of replay bookkeeping.
    [liveReplayTimerRef] holds the handle of the one live interval timer. *)
Record Component := mkComponent {
  state : State.t;
  liveReplayTimerRef : option positive;
  liveReplayStateRef : option Replay.t;
  liveReplayRunning : bool
}.

(** ** Live-replay sequencer *)

(** [updateVisibility] and the [style] calls only repaint: they read the
    state and leave it as it is. *)
Definition stopLiveReplay (c : Component) : Component :=
  mkComponent (state c) None None false.

(** The loop of [reveal] over [st.edges]: an edge whose two endpoints are in
    [visible] has its key added. *)
Definition revealEdges (visible : gset string) (edges : list Edge.t)
    (shown : gset string) : gset string :=
  foldl (λ acc e,
           let sId := endpointId (Edge.source e) in
           let tId := endpointId (Edge.target e) in
           if bool_decide (sId ∈ visible) && bool_decide (tId ∈ visible)
           then {[edgeKey sId tId]} ∪ acc else acc)
        shown edges.

(** One tick of [reveal]; what follows the loop over the edges repaints and
    nudges the force layout, and leaves the records as they are. *)
Definition reveal (c : Component) : Component :=
  match liveReplayStateRef c with
  | None => c
  | Some st =>
      match Replay.ordered st !! size (Replay.visibleNodes st) with
      | None => stopLiveReplay c
      | Some next =>
          let visibleNodes := {[Node.id next]} ∪ Replay.visibleNodes st in
          let visibleEdges :=
            revealEdges visibleNodes (Replay.edges st) (Replay.visibleEdges st) in
          mkComponent (state c) (liveReplayTimerRef c)
            (Some (Replay.mk (Replay.ordered st) (Replay.edges st)
                             visibleNodes visibleEdges))
            (liveReplayRunning c)
      end
  end.

(** [Number(n.orderIndex ?? 1e9)]. *)
Definition orderNumber (n : Node.t) : Z := default 1000000000%Z (Node.orderIndex n).

(** The record [startLiveReplay] stores before the first tick. *)
Definition replayStart (g : Graph.data) : Replay.t :=
  Replay.mk (sortBy (λ a b, orderNumber a - orderNumber b)%Z (Graph.dnodes g))
            (Graph.dedges g) ∅ ∅.

(** [startLiveReplay]; [handle] is what [window.setInterval] returns. *)
Definition startLiveReplay (handle : positive) (c : Component) : Component :=
  let g := State.graphData (state c) in
  match Graph.dnodes g with
  | [] => c
  | _ :: _ =>
      let s := state c in
      let s' := State.mk false None false
                  (State.proofTargetId s) (State.proofDepth s)
                  (State.proofVisibleNodes s) (State.proofVisibleEdges s)
                  (State.graphData s) (State.nodeById s)
                  (State.incomingEdgesByTarget s) in
      let c1 := reveal (mkComponent s' None (Some (replayStart g)) true) in
      mkComponent (state c1) (Some handle) (liveReplayStateRef c1)
                  (liveReplayRunning c1)
  end.

(** ** Proof-mode actions *)

Definition exitProofMode (s : State.t) : State.t :=
  State.mk false None false None (State.proofDepth s) ∅ ∅
           (State.graphData s) (State.nodeById s) (State.incomingEdgesByTarget s).

Section ProofMode.
(** Modelled from the spec: [getMaxPrereqDepth] of constellations/proof.ts,
    which is not among the sources.  Section 4.4: the greatest hop distance
    reachable from the target along the incoming index. *)
Variable getMaxPrereqDepth : option string → gmap string (list Adj.entry) → Z.

(** Modelled from the spec: [recomputeProofSubgraph] of
    constellations/proof.ts, which is not among the sources.  Section 4.4:
    from target, depth and the incoming index it computes the visible
    nodes and the visible edge keys, which is all it writes. *)
Variable proofSubgraph :
  option string → Z → gmap string (list Adj.entry) → gset string * gset string.

(** The action [recomputeProofSubgraph]: the two visible sets are
    replaced, the rest repaints. *)
Definition recomputeProofSubgraph (s : State.t) : State.t :=
  let vis := proofSubgraph (State.proofTargetId s) (State.proofDepth s)
               (State.incomingEdgesByTarget s) in
  State.mk (State.pinned s) (State.pinnedNode s) (State.proofMode s)
           (State.proofTargetId s) (State.proofDepth s) vis.1 vis.2
           (State.graphData s) (State.nodeById s) (State.incomingEdgesByTarget s).

Definition set_proofDepth (d : Z) (s : State.t) : State.t :=
  State.mk (State.pinned s) (State.pinnedNode s) (State.proofMode s)
           (State.proofTargetId s) d
           (State.proofVisibleNodes s) (State.proofVisibleEdges s)
           (State.graphData s) (State.nodeById s) (State.incomingEdgesByTarget s).

Definition enterProofMode (targetId : string) (s : State.t) : State.t :=
  recomputeProofSubgraph
    (State.mk true (State.nodeById s !! targetId) true (Some targetId) 1
              (State.proofVisibleNodes s) (State.proofVisibleEdges s)
              (State.graphData s) (State.nodeById s)
              (State.incomingEdgesByTarget s)).

Definition unfoldLess (s : State.t) : State.t :=
  if negb (State.proofMode s) then s
  else recomputeProofSubgraph
         (set_proofDepth (Z.max 1 (State.proofDepth s - 1)) s).

Definition unfoldMore (s : State.t) : State.t :=
  if negb (State.proofMode s) then s
  else
    let maxDepth :=
      getMaxPrereqDepth (State.proofTargetId s) (State.incomingEdgesByTarget s) in
    if (maxDepth <=? State.proofDepth s)%Z then s
    else recomputeProofSubgraph
           (set_proofDepth (Z.min maxDepth (State.proofDepth s + 1)) s).
End ProofMode.

(** ** Reference definitions the statements compare the code with *)

(** The standard subtractive numeral of [n], digit by digit, for
    [1 <= n <= 3999]. *)
Definition romanDigit (one five ten : string) (d : Z) : string :=
  if (d =? 1)%Z then one
  else if (d =? 2)%Z then one +:+ one
  else if (d =? 3)%Z then one +:+ one +:+ one
  else if (d =? 4)%Z then one +:+ five
  else if (d =? 5)%Z then five
  else if (d =? 6)%Z then five +:+ one
  else if (d =? 7)%Z then five +:+ one +:+ one
  else if (d =? 8)%Z then five +:+ one +:+ one +:+ one
  else if (d =? 9)%Z then one +:+ ten
  else "".

Definition canonicalRoman (n : Z) : string :=
  romanDigit "M" "" "" (n / 1000)
  +:+ romanDigit "C" "D" "M" (n / 100 mod 10)
  +:+ romanDigit "X" "L" "C" (n / 10 mod 10)
  +:+ romanDigit "I" "V" "X" (n mod 10).

(** The numbers 1 to 3999. *)
Definition romanRange : list Z := Z.of_nat <$> seq 1 3999.

(** A numeral is well formed when, in upper case, it is the standard numeral
    of a number of [romanRange]; anything else is malformed. *)
Definition wellFormedRoman (s : string) : bool :=
  existsb (λ n, String.eqb (JsString.toUpperCase s) (canonicalRoman n)) romanRange.

(** Some character of [s] is one of the seven letters, in either case. *)
Definition hasRomanLetter (s : string) : bool :=
  existsb isRomanLetter (JsString.chars s).

(** The tag of an edge reads as internal: the field is absent, empty, or
    spelled out. *)
Definition tagDefaultsToInternal (e : Edge.t) : Prop :=
  Edge.dependency_type e = None ∨ Edge.dependency_type e = Some ""
  ∨ Edge.dependency_type e = Some "internal".

(** The raw classifier of an edge is internal: [reference_type] is, or it is
    absent or empty and the camel-case [referenceType] is, or [type] is. *)
Definition classifiedInternal (e : Edge.t) : Prop :=
  Edge.reference_type e = Some "internal"
  ∨ ((Edge.reference_type e = None ∨ Edge.reference_type e = Some "")
     ∧ Edge.referenceType e = Some "internal")
  ∨ Edge.type e = Some "internal".

(** The tags the normalizer has a rule for. *)
Definition ruleTags : list string :=
  ["used_in"; "uses_result"; "uses_definition"; "is_corollary_of";
   "is_generalization_of"; "generalized_by"; "internal"; "provides_remark"].

(** The ids of the nodes of a graph. *)
Definition nodeIds (nodes : list Node.t) : list string := Node.id <$> nodes.

(** The adjacency entry [processGraphData] makes of an edge. *)
Definition entryOf (e : Edge.t) : Adj.entry :=
  Adj.mk (endpointId (Edge.source e)) (endpointId (Edge.target e)) (depOf e).

(** A node without its [orderIndex]. *)
Definition stripOrder (n : Node.t) : Node.t :=
  Node.mk (Node.id n) (Node.type n) (Node.label n) (Node.position n) None.

(** Three nodes on which [compareFirstOccurrence] runs in a circle. *)
Definition cycleA : Node.t :=
  Node.mk "a" "theorem" (Some "I:1") (Some (mkPosition (Some 1%Z) (Some 5%Z))) None.
Definition cycleB : Node.t :=
  Node.mk "b" "theorem" (Some "I:3") (Some (mkPosition (Some 1%Z) (Some 3%Z))) None.
Definition cycleC : Node.t :=
  Node.mk "c" "theorem" (Some "I:2") (Some (mkPosition (Some 1%Z) None)) None.

(** Three nodes without position whose label keys mix numbers and strings:
    [10; 1], the string 5, and [8; 1]. *)
Definition labelX : Node.t := Node.mk "x" "theorem" (Some "X:1") None None.
Definition label5 : Node.t := Node.mk "y" "theorem" (Some "5") None None.
Definition labelVIII : Node.t := Node.mk "z" "theorem" (Some "VIII:1") None None.

(** A graph with one edge and no node. *)
Definition danglingEdge : Edge.t :=
  Edge.mk (EndId "A") (EndId "B") (Some "used_in") None None None None.
Definition danglingGraph : Graph.data := Graph.mkData [] [danglingEdge].

(** A sample collation to run the definitions on concrete data: comparison
    by character codes. *)
Fixpoint codeUnitCompare (a b : string) : Z :=
  match a, b with
  | EmptyString, EmptyString => 0
  | EmptyString, String _ _ => -1
  | String _ _, EmptyString => 1
  | String x a', String y b' =>
      if (JsString.code x =? JsString.code y)%nat then codeUnitCompare a' b'
      else (Z.of_nat (JsString.code x) - Z.of_nat (JsString.code y))%Z
  end.

(** A two-node graph with one edge, and the component that shows it. *)
Definition nodeA : Node.t := Node.mk "A" "theorem" None None (Some 1%Z).
Definition nodeB : Node.t := Node.mk "B" "lemma" None None (Some 2%Z).
Definition edgeBA : Edge.t :=
  Edge.mk (EndId "B") (EndId "A") (Some "used_in") None None None None.
Definition graphAB : Graph.data := Graph.mkData [nodeB; nodeA] [edgeBA].

Definition stateAB : State.t :=
  let p := processGraphData codeUnitCompare graphAB in
  State.initial (Graph.mkData (Graph.nodes p) (Graph.edges p))
                (Graph.nodeById p) (Graph.incomingEdgesByTarget p).

Definition componentAB : Component := mkComponent stateAB None None false.

(** Proof mode on A, unfolded to depth 3. *)
Definition stateDepth3 : State.t :=
  State.mk true (Some nodeA) true (Some "A") 3 {["A"; "B"]} {[edgeKey "B" "A"]}
           (State.graphData stateAB) (State.nodeById stateAB)
           (State.incomingEdgesByTarget stateAB).

(** What [k] ticks make of a replay record that starts empty. *)
Definition revealedAfter (k : nat) (ordered : list Node.t) (edges : list Edge.t)
    (st : Replay.t) : Prop :=
  Replay.ordered st = ordered ∧
  Replay.edges st = edges ∧
  Replay.visibleNodes st = list_to_set (nodeIds (take k ordered)) ∧
  ∀ e, e ∈ edges →
       endpointId (Edge.source e) ∈ Replay.visibleNodes st →
       endpointId (Edge.target e) ∈ Replay.visibleNodes st →
       edgeKey (endpointId (Edge.source e)) (endpointId (Edge.target e))
         ∈ Replay.visibleEdges st.

(** ** Graph store: type and colour partitions of [processGraphData] *)

(** [Array.from(new Set(xs))]: the distinct elements of [xs], each at the
    place of its first occurrence. *)
Definition uniq (xs : list string) : list string :=
  foldl (λ acc x, if bool_decide (x ∈ acc) then acc else acc ++ [x]) [] xs.

(** [nodeTypes], computed from the sorted nodes. *)
Definition nodeTypes (nodes : list Node.t) : list string :=
  uniq (Node.type <$> nodes).

(** [edgeTypes], computed from the normalized edges. *)
Definition edgeTypes (edges : list Edge.t) : list string :=
  uniq (depOf <$> edges).

Definition CANONICAL_NODE_TYPE_ORDER : list string :=
  ["theorem"; "lemma"; "proposition"; "corollary"; "definition"; "remark";
   "conjecture"; "assumption"; "proof"; "example"; "claim"; "fact";
   "observation"; "external_reference"; "unknown"].

(** [orderedNodeTypes]: the canonical types that occur, in canonical order,
    then the other types sorted.  [sort()] without a comparator orders
    strings by their code units, which is what [codeUnitCompare] computes. *)
Definition orderedNodeTypes (types : list string) : list string :=
  filter (λ t, t ∈ types) CANONICAL_NODE_TYPE_ORDER
  ++ sortBy codeUnitCompare (filter (λ t, t ∉ CANONICAL_NODE_TYPE_ORDER) types).

(** [acc[key] = v] on an object created by the literal [{}], for a value
    [v] that is a string or [undefined].  The map holds the own properties
    of the object.  The key [__proto__] names the prototype accessor the
    object inherits: its setter ignores a value that is no object, so the
    assignment creates no property. *)
Definition setProperty {V : Type} (key : string) (v : V) (acc : gmap string V)
    : gmap string V :=
  if String.eqb key "__proto__" then acc else <[key := v]> acc.

(** The [reduce] that builds [nodeColors], from index [i] on.  [palette] is
    [NODE_PALETTE] of constellations/config.ts, which is not among the
    sources; an index into an empty palette reads [undefined], here [None]. *)
Fixpoint colorFrom (palette : list string) (i : nat) (types : list string)
    (acc : gmap string (option string)) : gmap string (option string) :=
  match types with
  | [] => acc
  | t :: rest =>
      colorFrom palette (S i) rest
        (setProperty t (palette !! (i mod length palette)) acc)
  end.

Definition nodeColors (palette : list string) (nodes : list Node.t)
    : gmap string (option string) :=
  colorFrom palette 0 (orderedNodeTypes (nodeTypes nodes)) ∅.

(** [edgeColors]; [colorOf] is [COLORS.edges] of constellations/config.ts,
    which is not among the sources. *)
Definition edgeColors (colorOf : string → string) (edges : list Edge.t)
    : gmap string string :=
  foldl (λ acc t, setProperty t (colorOf t) acc) ∅ (edgeTypes edges).

(** ** Sequences of proof-mode actions *)

Inductive ProofAction :=
  | UnfoldMore
  | UnfoldLess.

Section ProofRuns.
Variable getMaxPrereqDepth : option string → gmap string (list Adj.entry) → Z.
Variable proofSubgraph :
  option string → Z → gmap string (list Adj.entry) → gset string * gset string.

Definition stepProof (s : State.t) (a : ProofAction) : State.t :=
  match a with
  | UnfoldMore => unfoldMore getMaxPrereqDepth proofSubgraph s
  | UnfoldLess => unfoldLess proofSubgraph s
  end.

(** The actions of [acts] one after the other, from left to right. *)
Definition runProof (s : State.t) (acts : list ProofAction) : State.t :=
  foldl stepProof s acts.

(** The visible sets of [s] are the ones the subgraph computation gives for
    the target and depth of [s]. *)
Definition coherent (s : State.t) : Prop :=
  (State.proofVisibleNodes s, State.proofVisibleEdges s)
  = proofSubgraph (State.proofTargetId s) (State.proofDepth s)
      (State.incomingEdgesByTarget s).
End ProofRuns.

(** ** Reference definitions for the ordering *)

(** The key of a node that has a line, a column and a label of the numbered
    form: line, column, numeral value, segments. *)
Definition positionedKey (n : Node.t) : option (list Z) :=
  match lineOf n, colOf n, matchLabel (labelOf n) with
  | Some l, Some c, Some (m1, m2) =>
      Some (l :: c :: romanToInt m1 :: digitRuns m2 None)
  | _, _, _ => None
  end.

(** Segments written in base ten and joined by dashes. *)
Fixpoint formatSegments (ns : list N) : string :=
  match ns with
  | [] => ""
  | [n] => pretty n
  | n :: rest => pretty n +:+ "-" +:+ formatSegments rest
  end.

(** A label of the numbered form: a numeral, a colon, the segments. *)
Definition formatLabel (roman : string) (ns : list N) : string :=
  roman +:+ ":" +:+ formatSegments ns.

(** A non-empty string of roman letters, in either case. *)
Definition isNumeralText (r : string) : bool :=
  JsString.nonEmpty r && forallb isRomanLetter (JsString.chars r).

(** ** Reference definitions for the replay *)

(** What a replay record of graph [g] may show: only ids of nodes of [g],
    and only keys of edges of [g] whose two endpoints are shown. *)
Definition replaySound (g : Graph.data) (st : Replay.t) : Prop :=
  Replay.ordered st = Replay.ordered (replayStart g) ∧
  Replay.edges st = Graph.dedges g ∧
  (∀ x, x ∈ Replay.visibleNodes st → x ∈ nodeIds (Graph.dnodes g)) ∧
  (∀ key, key ∈ Replay.visibleEdges st →
     ∃ e, e ∈ Graph.dedges g
          ∧ key = edgeKey (endpointId (Edge.source e)) (endpointId (Edge.target e))
          ∧ endpointId (Edge.source e) ∈ Replay.visibleNodes st
          ∧ endpointId (Edge.target e) ∈ Replay.visibleNodes st).

(** A graph in which two nodes share the id A. *)
Definition graphTwins : Graph.data :=
  Graph.mkData [Node.mk "A" "theorem" None None (Some 1%Z);
                Node.mk "A" "lemma" None None (Some 2%Z);
                Node.mk "B" "lemma" None None (Some 3%Z)] [].

(** A character of a numbered label: a roman letter, a colon, a digit or a
    dash.  None of them is white space or ends a line. *)
Definition isLabelChar (c : ascii) : bool :=
  isRomanLetter c || Ascii.eqb c ":" || JsString.isDigit c || Ascii.eqb c "-".

(** Reading the digits [ds] from left to right, starting from [v]. *)
Definition readDigits (v : Z) (ds : list ascii) : Z :=
  foldl (λ a c, 10 * a + JsString.digitValue c)%Z v ds.

(** A list of characters that does not start with white space. *)
Definition noLeadingSpace (cs : list ascii) : Prop :=
  match cs with
  | [] => True
  | c :: _ => JsString.isSpace c = false
  end.

(** Two nodes on the same line and column with the same label and
    different ids. *)
Definition tieA : Node.t :=
  Node.mk "n1" "lemma" (Some "Lemma 2") (Some (mkPosition (Some 4%Z) (Some 1%Z))) None.
Definition tieB : Node.t :=
  Node.mk "n2" "lemma" (Some " Lemma 2 ") (Some (mkPosition (Some 4%Z) (Some 1%Z))) None.

(** Two positioned, numbered nodes. *)
Definition graphPositioned : Graph.data := Graph.mkData [cycleA; cycleB] [].

(** ** Reference definitions for the sort *)

(** A comparator is consistent on the elements of [l]: swapping the
    arguments swaps the sign, and coming before is transitive.  For such a
    comparator every correct stable sort returns the same list. *)
Definition consistentOn {A : Type} (cmp : A → A → Z) (l : list A) : Prop :=
  (∀ x y, x ∈ l → y ∈ l → Z.sgn (cmp y x) = (- Z.sgn (cmp x y))%Z) ∧
  (∀ x y z, x ∈ l → y ∈ l → z ∈ l →
     (cmp x y ≤ 0)%Z → (cmp y z ≤ 0)%Z → (cmp x z ≤ 0)%Z).

(** The strict lexicographic order on lists of integers: the first place
    where the lists differ decides, and a proper prefix comes first. *)
Fixpoint lexLt (a b : list Z) : Prop :=
  match a, b with
  | _, [] => False
  | [], _ :: _ => True
  | x :: a', y :: b' => (x < y)%Z ∨ (x = y ∧ lexLt a' b')
  end.

(** A node with a line, a column and a numbered label whose numbers are all
    integers a double holds exactly. *)
Definition safeKey (n : Node.t) : Prop :=
  match positionedKey n with
  | Some k => Forall safeInteger k
  | None => False
  end.

(** * Theorems *)

(** ** [romanToInt] *)

Lemma romanLoop_no_letter (s : string) (out : Z) :
  existsb (λ c, negb (romanValue c =? 0)%Z) (JsString.chars s) = false →
  romanLoop s out = out.
Proof.
  revert out. induction s as [|c rest IH]; intros out H; [reflexivity|].
  cbn in H. apply orb_false_iff in H as [Hc Hrest].
  apply negb_false_iff, Z.eqb_eq in Hc.
  cbn [romanLoop]. rewrite Hc.
  assert (nextValue rest = 0 ∨ 0 < nextValue rest)%Z as Hn.
  { destruct rest as [|d r]; [left; reflexivity|].
    cbn in Hrest. apply orb_false_iff in Hrest as [Hd _].
    apply negb_false_iff, Z.eqb_eq in Hd. left. exact Hd. }
  destruct Hn as [Hn|Hn].
  - rewrite Hn. cbn. rewrite Z.add_0_r. by apply IH.
  - destruct (0 <? nextValue rest)%Z; rewrite ?Z.sub_0_r, ?Z.add_0_r; by apply IH.
Qed.

Lemma chars_toUpperCase (s : string) :
  JsString.chars (JsString.toUpperCase s) = JsString.upperChar <$> JsString.chars s.
Proof. induction s as [|c rest IH]; [reflexivity|]. cbn. f_equal. exact IH. Qed.

Lemma romanToInt_range_check :
  forallb (λ n, (romanToInt (canonicalRoman n) =? n)%Z) romanRange = true.
Proof. vm_compute. reflexivity. Qed.

(** C9 (as amended).  [romanToInt] reads the standard subtractive numerals:
    VIII is 8, IV is 4, and the standard numeral of every n from 1 to 3999 is
    read back as n.  The input is not validated: the malformed numeral IIII
    is summed to 4.  In ASCII text a character outside I, V, X, L, C, D, M
    counts as 0: an ASCII input with none of the seven letters (the empty
    string too) yields 0. *)
Theorem romanToInt_subtractive_and_letterless_zero :
  romanToInt "VIII" = 8%Z ∧ romanToInt "IV" = 4%Z ∧ romanToInt "IIII" = 4%Z ∧
  (∀ n : Z, (1 ≤ n ≤ 3999)%Z → romanToInt (canonicalRoman n) = n) ∧
  (∀ s : string, JsString.isAscii s = true → hasRomanLetter s = false →
                 romanToInt s = 0%Z).
Proof.
  split; [reflexivity|]. split; [reflexivity|]. split; [reflexivity|]. split.
  - intros n Hn.
    pose proof romanToInt_range_check as Hall.
    rewrite forallb_forall in Hall.
    apply Z.eqb_eq, Hall. unfold romanRange.
    apply list_elem_of_In, list_elem_of_fmap. exists (Z.to_nat n). split; [lia|].
    apply elem_of_seq. lia.
  - intros s _ Hs. unfold romanToInt. cbv zeta.
    rewrite romanLoop_no_letter; [reflexivity|].
    rewrite chars_toUpperCase. unfold hasRomanLetter in Hs.
    clear -Hs. induction (JsString.chars s) as [|c l IH]; [reflexivity|].
    cbn in *. apply orb_false_iff in Hs as [Hc Hl].
    rewrite IH by exact Hl. unfold isRomanLetter in Hc. by rewrite Hc.
Qed.

Lemma romanToInt_subtractive_and_letterless_zero_witness :
  romanToInt "?-1" = 0%Z ∧ romanToInt (canonicalRoman 1994) = 1994%Z.
Proof.
  split.
  - apply (proj2 (proj2 (proj2 (proj2 romanToInt_subtractive_and_letterless_zero))));
      reflexivity.
  - apply (proj1 (proj2 (proj2 (proj2 romanToInt_subtractive_and_letterless_zero)))).
    lia.
Defined.

(** C9, the claim as written fails: IIII is not a well-formed numeral (four
    is written IV), it is a numeral [labelSortKey] passes on, and
    [romanToInt] returns 4 for it, not 0. *)
Lemma romanToInt_malformed_nonzero :
  wellFormedRoman "IIII" = false ∧ romanToInt "IIII" = 4%Z ∧ romanToInt "IIII" ≠ 0%Z
  ∧ labelSortKey "IIII:1" = [KNum 4; KNum 1].
Proof.
  split; [vm_compute; reflexivity|]. split; [reflexivity|].
  split; [discriminate|]. vm_compute. reflexivity.
Qed.

(** ** [edgeKey] *)

Lemma includes_tail (needle : string) (c : ascii) (rest : string) :
  JsString.includes needle (String c rest) = false →
  JsString.includes needle rest = false.
Proof. cbn [JsString.includes]. intros H. by apply orb_false_iff in H as [_ H]. Qed.

Lemma edgeKey_inj_sources (s1 s2 t1 t2 : string) :
  JsString.includes "=>" s1 = false →
  JsString.includes "=>" s2 = false →
  edgeKey s1 t1 = edgeKey s2 t2 → s1 = s2 ∧ t1 = t2.
Proof.
  unfold edgeKey. revert s2.
  induction s1 as [|c1 r1 IH]; intros [|c2 r2] H1 H2 Heq.
  - cbn in Heq. by simplify_eq.
  - exfalso. cbn in Heq. simplify_eq.
    destruct r2 as [|d r2]; cbn in *; simplify_eq.
  - exfalso. cbn in Heq. simplify_eq.
    destruct r1 as [|d r1]; cbn in *; simplify_eq.
  - cbn in Heq. simplify_eq.
    apply includes_tail in H1, H2.
    destruct (IH r2 H1 H2) as [-> ->]; [assumption|done].
Qed.

(** C10.  For ids none of which contains the delimiter, equal edge keys come
    from equal sources and equal targets. *)
Theorem edgeKey_injective (s1 t1 s2 t2 : string) :
  JsString.includes "=>" s1 = false →
  JsString.includes "=>" t1 = false →
  JsString.includes "=>" s2 = false →
  JsString.includes "=>" t2 = false →
  edgeKey s1 t1 = edgeKey s2 t2 → s1 = s2 ∧ t1 = t2.
Proof. intros H1 _ H2 _. by apply edgeKey_inj_sources. Qed.

Lemma edgeKey_injective_witness : "A=" = "A=" ∧ ">B" = ">B".
Proof.
  apply (edgeKey_injective "A=" ">B" "A=" ">B"); reflexivity.
Defined.

(** ** Edge semantics normalizer *)

Lemma depOf_present (e : Edge.t) (d : string) :
  Edge.dependency_type e = Some d → d ≠ "" → depOf e = d.
Proof.
  intros Hd Hne. unfold depOf, JsString.or. rewrite Hd.
  destruct d; [done|reflexivity].
Qed.

Lemma depOf_default (e : Edge.t) : tagDefaultsToInternal e → depOf e = "internal".
Proof.
  unfold tagDefaultsToInternal, depOf, JsString.or.
  intros [H|[H|H]]; rewrite H; reflexivity.
Qed.

Lemma relabel_same (e : Edge.t) (d : string) :
  Edge.dependency_type e = Some d → Edge.relabel d e = e.
Proof. destruct e; cbn; intros ->; reflexivity. Qed.

Lemma isStr_true (x : option string) (s : string) : isStr x s = true ↔ x = Some s.
Proof.
  destruct x as [y|]; cbn; [|done].
  rewrite String.eqb_eq. split; [by intros ->|by intros [= ->]].
Qed.

Lemma refOf_internal (e : Edge.t) :
  classifiedInternal e ↔ isStr (refOf e) "internal" || isStr (typOf e) "internal" = true.
Proof.
  rewrite orb_true_iff, !isStr_true.
  unfold classifiedInternal, refOf, typOf, JsString.or.
  destruct (Edge.reference_type e) as [[|c r]|],
           (Edge.referenceType e) as [[|c' r']|],
           (Edge.type e) as [[|c'' r'']|]; cbn; intuition congruence.
Qed.

Ltac case_tag d :=
  destruct (String.eqb_spec d "used_in");
  destruct (String.eqb_spec d "uses_result");
  destruct (String.eqb_spec d "uses_definition");
  destruct (String.eqb_spec d "is_corollary_of");
  destruct (String.eqb_spec d "is_generalization_of");
  destruct (String.eqb_spec d "generalized_by");
  destruct (String.eqb_spec d "internal");
  destruct (String.eqb_spec d "provides_remark");
  simplify_eq; cbn [orb andb]; try done.

Lemma normalizeEdge_of_tag (e : Edge.t) (d : string) :
  depOf e = d →
  normalizeEdge e =
    if String.eqb d "used_in" then Some (Edge.relabel "used_in" e)
    else if String.eqb d "uses_result" || String.eqb d "uses_definition"
            || String.eqb d "is_corollary_of"
    then Some (Edge.flip "used_in" e)
    else if String.eqb d "is_generalization_of" || String.eqb d "generalized_by"
    then Some (Edge.flip "generalized_by" e)
    else if String.eqb d "internal"
            && (isStr (refOf e) "internal" || isStr (typOf e) "internal")
    then Some (Edge.flip "internal" e)
    else if String.eqb d "provides_remark" then None
    else Some e.
Proof. intros <-. reflexivity. Qed.

(** C1 (as amended).  [processGraphData] maps the callback over the raw edges
    and drops the nulls.  The callback applies, first match first: a used_in
    edge is kept as it is; uses_result, uses_definition and is_corollary_of
    edges swap source and target and become used_in; is_generalization_of and
    generalized_by edges swap and become generalized_by; an edge whose tag is
    absent, empty or internal and whose classifier ([reference_type], or
    [referenceType] when that is absent or empty, or [type]) is internal swaps
    and is labelled internal; a provides_remark edge is dropped; every other
    edge passes through unchanged.  No normalized edge is a provides_remark
    edge. *)
Theorem normalizeEdge_rules :
  (∀ localeCompare g,
     Graph.edges (processGraphData localeCompare g)
     = omap normalizeEdge (Graph.dedges g)) ∧
  (∀ e : Edge.t,
     (Edge.dependency_type e = Some "used_in" → normalizeEdge e = Some e) ∧
     (Edge.dependency_type e = Some "uses_result"
      ∨ Edge.dependency_type e = Some "uses_definition"
      ∨ Edge.dependency_type e = Some "is_corollary_of" →
      normalizeEdge e = Some (Edge.flip "used_in" e)) ∧
     (Edge.dependency_type e = Some "is_generalization_of"
      ∨ Edge.dependency_type e = Some "generalized_by" →
      normalizeEdge e = Some (Edge.flip "generalized_by" e)) ∧
     (tagDefaultsToInternal e → classifiedInternal e →
      normalizeEdge e = Some (Edge.flip "internal" e)) ∧
     (Edge.dependency_type e = Some "provides_remark" → normalizeEdge e = None) ∧
     (tagDefaultsToInternal e → ¬ classifiedInternal e → normalizeEdge e = Some e) ∧
     (∀ d, Edge.dependency_type e = Some d → d ≠ "" → d ∉ ruleTags →
           normalizeEdge e = Some e)) ∧
  (∀ (es : list Edge.t) (e' : Edge.t),
     e' ∈ normalizeEdges es → Edge.dependency_type e' ≠ Some "provides_remark").
Proof.
  split; [reflexivity|]. split.
  - intros e. repeat split.
    + intros H. rewrite (normalizeEdge_of_tag e "used_in"); [|by apply depOf_present].
      cbn. f_equal. by apply relabel_same.
    + intros [H|[H|H]];
        erewrite normalizeEdge_of_tag by (by apply depOf_present); reflexivity.
    + intros [H|H];
        erewrite normalizeEdge_of_tag by (by apply depOf_present); reflexivity.
    + intros Ht Hc. rewrite (normalizeEdge_of_tag e "internal"); [|by apply depOf_default].
      apply refOf_internal in Hc. cbn. by rewrite Hc.
    + intros H.
      erewrite normalizeEdge_of_tag by (by apply depOf_present); reflexivity.
    + intros Ht Hc. rewrite (normalizeEdge_of_tag e "internal"); [|by apply depOf_default].
      rewrite refOf_internal in Hc. apply not_true_is_false in Hc.
      cbn. by rewrite Hc.
    + intros d Hd Hne Hnot.
      rewrite (normalizeEdge_of_tag e d); [|by apply depOf_present].
      unfold ruleTags in Hnot. case_tag d; exfalso; apply Hnot; set_solver.
  - intros es e' Hin. unfold normalizeEdges in Hin.
    apply list_elem_of_omap in Hin as (e & _ & He).
    intros Hrem.
    rewrite (normalizeEdge_of_tag e (depOf e)) in He by reflexivity.
    assert (Edge.dependency_type e = Some "provides_remark" →
            depOf e = "provides_remark") as Hdep
      by (intros; by apply depOf_present).
    destruct e as [src tgt dt rt rT ty cx]; cbn in *.
    case_tag (depOf (Edge.mk src tgt dt rt rT ty cx));
      repeat match goal with
             | H : (if ?b then _ else _) = _ |- _ => destruct b
             end; simplify_eq; cbn in *; simplify_eq;
      try (specialize (Hdep eq_refl); congruence).
Qed.

Lemma normalizeEdge_rules_witness :
  normalizeEdge (Edge.mk (EndId "A") (EndId "B") (Some "uses_result") None None None None)
  = Some (Edge.mk (EndId "B") (EndId "A") (Some "used_in") None None None None).
Proof.
  exact (proj1 (proj2 (proj1 (proj2 normalizeEdge_rules)
           (Edge.mk (EndId "A") (EndId "B") (Some "uses_result") None None None None)))
           (or_introl eq_refl)).
Defined.

(** C1, the claim as written fails: an edge tagged internal whose
    [reference_type] and [type] are absent but whose [referenceType] is
    internal matches no rule of the table, which lets it pass unchanged;
    [processGraphData] swaps its endpoints. *)
Lemma normalizeEdge_differs_from_table :
  let e := Edge.mk (EndId "A") (EndId "B") (Some "internal")
             None (Some "internal") None None in
  table_4_1 e = Some e ∧
  normalizeEdge e = Some (Edge.flip "internal" e) ∧
  normalizeEdge e ≠ table_4_1 e.
Proof. cbv zeta. split; [reflexivity|]. split; [reflexivity|]. cbn. discriminate. Qed.

(** X1.  Where the two can differ is exactly there: on an edge without the
    camel-case field and with a tag that is not the empty string, the code
    does what the table of section 4.1 says. *)
Theorem normalizeEdge_table_agree (e : Edge.t) :
  Edge.referenceType e = None → Edge.dependency_type e ≠ Some "" →
  normalizeEdge e = table_4_1 e.
Proof.
  intros HrT Hd.
  assert (depOf e = default "internal" (Edge.dependency_type e)) as Hdep.
  { unfold depOf, JsString.or. by destruct (Edge.dependency_type e) as [[|c d]|]. }
  assert (isStr (refOf e) "internal" = isStr (Edge.reference_type e) "internal") as Href.
  { unfold refOf, JsString.or. rewrite HrT.
    by destruct (Edge.reference_type e) as [[|c d]|]. }
  assert (isStr (typOf e) "internal" = isStr (Edge.type e) "internal") as Htyp.
  { unfold typOf, JsString.or. by destruct (Edge.type e) as [[|c d]|]. }
  unfold normalizeEdge, table_4_1. cbv zeta. rewrite Hdep, Href, Htyp.
  destruct (String.eqb_spec (default "internal" (Edge.dependency_type e)) "used_in")
    as [Hu|_]; [|reflexivity].
  f_equal. apply relabel_same.
  destruct (Edge.dependency_type e); cbn in Hu; by simplify_eq.
Qed.

Lemma normalizeEdge_table_agree_witness :
  normalizeEdge edgeBA = table_4_1 edgeBA.
Proof. apply normalizeEdge_table_agree; [reflexivity|discriminate]. Defined.

(** ** Ordering *)

(** C4, at the failing input.  Three nodes on line 1: [cycleA] at column 5
    with label I:1, [cycleB] at column 3 with label I:3, [cycleC] without a
    column and with label I:2.  Whatever the collation, [cycleB] sorts before
    [cycleA] (columns), [cycleA] before [cycleC] and [cycleC] before [cycleB]
    (labels, because a missing column is not ranked against a present one),
    and [cycleB] does not sort before [cycleC]: the comparator is not
    transitive, so it is no consistent comparator for a sort. *)
Theorem compareFirstOccurrence_not_transitive (localeCompare : string → string → Z) :
  (compareFirstOccurrence localeCompare cycleB cycleA < 0)%Z ∧
  (compareFirstOccurrence localeCompare cycleA cycleC < 0)%Z ∧
  (compareFirstOccurrence localeCompare cycleC cycleB < 0)%Z ∧
  ¬ (compareFirstOccurrence localeCompare cycleB cycleC < 0)%Z.
Proof. repeat split; vm_compute; congruence. Qed.

Lemma sortBy_Permutation {A} (cmp : A → A → Z) (l : list A) : sortBy cmp l ≡ₚ l.
Proof.
  assert (∀ x k, insertBy cmp x k ≡ₚ x :: k) as Hins.
  { intros x k. induction k as [|y k IH]; [reflexivity|].
    cbn. destruct (cmp x y <=? 0)%Z; [reflexivity|].
    rewrite IH. apply Permutation_swap. }
  induction l as [|x l IH]; [reflexivity|].
  cbn. rewrite Hins. by f_equiv.
Qed.

Lemma sortBy_length {A} (cmp : A → A → Z) (l : list A) :
  length (sortBy cmp l) = length l.
Proof. apply Permutation_length, sortBy_Permutation. Qed.

Lemma assignOrderIndex_strip (l : list Node.t) :
  stripOrder <$> assignOrderIndex l = stripOrder <$> l.
Proof.
  unfold assignOrderIndex. apply list_eq. intros i.
  rewrite !list_lookup_fmap, list_lookup_imap.
  by destruct (l !! i).
Qed.

Lemma assignOrderIndex_values (l : list Node.t) :
  Node.orderIndex <$> assignOrderIndex l
  = (λ k, Some (Z.of_nat k)) <$> seq 1 (length l).
Proof.
  unfold assignOrderIndex. apply list_eq. intros i.
  rewrite !list_lookup_fmap, list_lookup_imap.
  destruct (l !! i) as [n|] eqn:Hi.
  - apply lookup_lt_Some in Hi as Hlt.
    rewrite lookup_seq_lt by exact Hlt. cbn. do 2 f_equal. lia.
  - apply lookup_ge_None in Hi.
    by rewrite lookup_seq_ge.
Qed.

(** ** Adjacency indices *)

Lemma pushEntry_lookup (k j : string) (x : Adj.entry) (m : gmap string (list Adj.entry)) :
  default [] (pushEntry k x m !! j)
  = default [] (m !! j) ++ (if bool_decide (k = j) then [x] else []).
Proof.
  unfold pushEntry. case_bool_decide as Hk.
  - subst j. by rewrite lookup_insert_eq.
  - rewrite lookup_insert_ne by done. by rewrite app_nil_r.
Qed.

Lemma buildAdjacency_snoc (edges : list Edge.t) (e : Edge.t) :
  buildAdjacency (edges ++ [e]) = indexEdge (buildAdjacency edges) e.
Proof. unfold buildAdjacency. by rewrite foldl_app. Qed.

(** The outgoing index under [k] lists, in order, the entries of the edges
    whose source is [k]; the incoming index likewise for targets. *)
Lemma buildAdjacency_lookup (edges : list Edge.t) (k : string) :
  default [] ((buildAdjacency edges).1 !! k)
  = entryOf <$> filter (λ e, endpointId (Edge.source e) = k) edges
  ∧ default [] ((buildAdjacency edges).2 !! k)
  = entryOf <$> filter (λ e, endpointId (Edge.target e) = k) edges.
Proof.
  induction edges as [|e edges [IH1 IH2]] using rev_ind; [done|].
  rewrite buildAdjacency_snoc, !filter_app, !fmap_app.
  unfold indexEdge. cbn [fst snd]. rewrite !pushEntry_lookup, IH1, IH2.
  rewrite !filter_cons, !filter_nil.
  split; f_equal; case_bool_decide; by case_decide.
Qed.

(** C6 (as amended).  Every edge of the processed graph is indexed, whether
    or not its endpoints are ids of nodes of the graph: its entry is in the
    outgoing index under its source and in the incoming index under its
    target. *)
Theorem processGraphData_indexes_every_edge
    (localeCompare : string → string → Z) (g : Graph.data) (e : Edge.t) :
  e ∈ Graph.edges (processGraphData localeCompare g) →
  let p := processGraphData localeCompare g in
  (∃ l, Graph.outgoingEdgesBySource p !! endpointId (Edge.source e) = Some l
        ∧ entryOf e ∈ l) ∧
  (∃ l, Graph.incomingEdgesByTarget p !! endpointId (Edge.target e) = Some l
        ∧ entryOf e ∈ l).
Proof.
  cbn. intros He.
  set (es := normalizeEdges (Graph.dedges g)) in *.
  destruct (buildAdjacency_lookup es (endpointId (Edge.source e))) as [Hout _].
  destruct (buildAdjacency_lookup es (endpointId (Edge.target e))) as [_ Hin].
  assert (entryOf e ∈ entryOf <$> filter (λ e', endpointId (Edge.source e') = endpointId (Edge.source e)) es) as H1.
  { apply list_elem_of_fmap. exists e. split; [done|]. by apply list_elem_of_filter. }
  assert (entryOf e ∈ entryOf <$> filter (λ e', endpointId (Edge.target e') = endpointId (Edge.target e)) es) as H2.
  { apply list_elem_of_fmap. exists e. split; [done|]. by apply list_elem_of_filter. }
  rewrite <- Hout in H1. rewrite <- Hin in H2.
  split.
  - destruct ((buildAdjacency es).1 !! _) as [l|]; [by exists l|].
    cbn in H1. by apply elem_of_nil in H1.
  - destruct ((buildAdjacency es).2 !! _) as [l|]; [by exists l|].
    cbn in H2. by apply elem_of_nil in H2.
Qed.

Lemma processGraphData_indexes_every_edge_witness :
  ∃ l, Graph.outgoingEdgesBySource (processGraphData codeUnitCompare danglingGraph) !! "A"
       = Some l ∧ Adj.mk "A" "B" "used_in" ∈ l.
Proof.
  refine (proj1 (processGraphData_indexes_every_edge codeUnitCompare danglingGraph
                   danglingEdge _)).
  vm_compute. apply list_elem_of_here.
Defined.

(** C6, the claim as written fails: in a graph with no node at all, the edge
    from A to B has an entry in both indices. *)
Lemma dangling_edge_is_indexed :
  let p := processGraphData codeUnitCompare danglingGraph in
  Graph.nodes p = [] ∧
  Graph.edges p = [danglingEdge] ∧
  Graph.outgoingEdgesBySource p !! "A" = Some [Adj.mk "A" "B" "used_in"] ∧
  Graph.incomingEdgesByTarget p !! "B" = Some [Adj.mk "A" "B" "used_in"].
Proof. cbv zeta. repeat split; vm_compute; reflexivity. Qed.

(** ** Proof mode *)

(** C3.  [unfoldMore] never lowers the depth.  In proof mode, when the
    greatest prerequisite depth is at most the current depth the state is
    left as it is; otherwise the depth becomes the smaller of that greatest
    depth and the current depth plus one.  This holds whatever
    [getMaxPrereqDepth] and the subgraph computation return. *)
Theorem unfoldMore_never_shrinks
    (getMaxPrereqDepth : option string → gmap string (list Adj.entry) → Z)
    (proofSubgraph : option string → Z → gmap string (list Adj.entry)
                     → gset string * gset string)
    (s : State.t) :
  let s' := unfoldMore getMaxPrereqDepth proofSubgraph s in
  let maxDepth :=
    getMaxPrereqDepth (State.proofTargetId s) (State.incomingEdgesByTarget s) in
  (State.proofDepth s ≤ State.proofDepth s')%Z ∧
  (State.proofMode s = false → s' = s) ∧
  (State.proofMode s = true → (maxDepth ≤ State.proofDepth s)%Z → s' = s) ∧
  (State.proofMode s = true → (State.proofDepth s < maxDepth)%Z →
   State.proofDepth s' = Z.min maxDepth (State.proofDepth s + 1)).
Proof.
  cbv zeta. unfold unfoldMore.
  destruct (State.proofMode s); cbn [negb].
  - destruct (Z.leb_spec
                (getMaxPrereqDepth (State.proofTargetId s) (State.incomingEdgesByTarget s))
                (State.proofDepth s)) as [Hle|Hlt]; cbn.
    + repeat split; intros; try done; lia.
    + repeat split; intros; try done; lia.
  - repeat split; intros; try done; lia.
Qed.

Lemma unfoldMore_never_shrinks_witness :
  State.proofDepth
    (unfoldMore (λ _ _, 5%Z) (λ _ _ _, (∅, ∅))
       (State.mk true None true (Some "A") 1 ∅ ∅ graphAB ∅ ∅))
  = Z.min 5 (1 + 1).
Proof.
  refine (proj2 (proj2 (proj2
    (unfoldMore_never_shrinks (λ _ _, 5%Z) (λ _ _ _, (∅, ∅))
       (State.mk true None true (Some "A") 1 ∅ ∅ graphAB ∅ ∅)))) _ _);
    [reflexivity | cbn; lia].
Defined.

(** C7 (as amended).  [exitProofMode] leaves proof mode, clears the target
    and both visible sets, and unpins; the depth keeps the value it had (the
    next [enterProofMode] sets it to 1). *)
Theorem exitProofMode_clears_all_but_depth (s : State.t) :
  let s' := exitProofMode s in
  State.proofMode s' = false ∧
  State.proofTargetId s' = None ∧
  State.proofVisibleNodes s' = ∅ ∧
  State.proofVisibleEdges s' = ∅ ∧
  State.pinned s' = false ∧
  State.pinnedNode s' = None ∧
  State.proofDepth s' = State.proofDepth s ∧
  (∀ getMaxPrereqDepth proofSubgraph targetId,
     State.proofDepth (enterProofMode proofSubgraph targetId s') = 1%Z ∧
     unfoldMore getMaxPrereqDepth proofSubgraph s' = s').
Proof. cbv zeta. repeat split. Qed.

(** C7, the claim as written fails: leaving proof mode at depth 3 leaves the
    depth at 3, which is not the depth of a fresh state. *)
Lemma exitProofMode_keeps_depth :
  State.proofDepth (exitProofMode stateDepth3) = 3%Z ∧
  State.proofDepth (exitProofMode stateDepth3) ≠ State.proofDepth stateAB.
Proof. split; [reflexivity|]. cbn. discriminate. Qed.

(** ** Live replay *)

(** C8 (as amended).  [stopLiveReplay] clears the timer handle, marks the
    replay as not running and drops the replay record, the revealed sets with
    it; the [state] object is left as it is. *)
Theorem stopLiveReplay_discards_replay (c : Component) :
  let c' := stopLiveReplay c in
  liveReplayTimerRef c' = None ∧
  liveReplayRunning c' = false ∧
  liveReplayStateRef c' = None ∧
  state c' = state c ∧
  reveal c' = c'.
Proof. cbv zeta. repeat split. Qed.

(** C8, the claim as written fails: after a replay of the two-node graph has
    revealed its first node, stopping it leaves no revealed set to read. *)
Lemma stopLiveReplay_drops_revealed_sets :
  let c := startLiveReplay 1 componentAB in
  (∃ st, liveReplayStateRef c = Some st ∧ Replay.visibleNodes st = {["A"]}) ∧
  liveReplayStateRef (stopLiveReplay c) = None.
Proof.
  cbv zeta. split; [|reflexivity].
  eexists. split; [reflexivity|]. vm_compute. reflexivity.
Qed.

Lemma revealEdges_spec (visible : gset string) (edges : list Edge.t)
    (shown : gset string) (x : string) :
  x ∈ revealEdges visible edges shown ↔
  x ∈ shown ∨
  ∃ e, e ∈ edges ∧ endpointId (Edge.source e) ∈ visible
       ∧ endpointId (Edge.target e) ∈ visible
       ∧ x = edgeKey (endpointId (Edge.source e)) (endpointId (Edge.target e)).
Proof.
  unfold revealEdges. revert shown.
  induction edges as [|e edges IH]; intros shown; cbn [foldl].
  - split; [by left|]. intros [H|(e & He & _)]; [done|]. by apply elem_of_nil in He.
  - rewrite IH. clear IH. split.
    + intros [H|(e' & He' & Hs & Ht & ->)].
      * repeat case_bool_decide; cbn [andb] in H; try (by left).
        apply elem_of_union in H as [H|H]; [|by left].
        apply elem_of_singleton in H as ->. right. exists e.
        split; [apply list_elem_of_here|done].
      * right. exists e'. split; [by apply list_elem_of_further|done].
    + intros [H|(e' & He' & Hs & Ht & ->)].
      * left. repeat case_bool_decide; cbn [andb]; set_solver.
      * apply elem_of_cons in He' as [->|He'].
        -- left. rewrite !bool_decide_eq_true_2 by done. cbn [andb]. set_solver.
        -- right. by exists e'.
Qed.

Lemma reveal_step (k : nat) (ordered : list Node.t) (edges : list Edge.t)
    (c : Component) (st : Replay.t) :
  NoDup (nodeIds ordered) → k < length ordered →
  liveReplayStateRef c = Some st → revealedAfter k ordered edges st →
  ∃ st', liveReplayStateRef (reveal c) = Some st'
         ∧ revealedAfter (S k) ordered edges st'.
Proof.
  intros Hnd Hk Hc (Hord & Hed & Hvis & _).
  assert (size (Replay.visibleNodes st) = k) as Hsize.
  { rewrite Hvis, size_list_to_set.
    - unfold nodeIds. rewrite length_fmap, length_take. lia.
    - unfold nodeIds in *. rewrite fmap_take.
      eapply sublist_NoDup; [exact Hnd|apply sublist_take]. }
  destruct (lookup_lt_is_Some_2 ordered k Hk) as [next Hnext].
  unfold reveal. rewrite Hc, Hord, Hsize, Hnext.
  eexists. split; [reflexivity|].
  split; [done|]. split; [done|]. cbn. split.
  - rewrite (take_S_r _ _ _ Hnext). unfold nodeIds in *.
    rewrite fmap_app, list_to_set_app_L, Hvis. cbn.
    rewrite (right_id_L ∅ (∪)). apply (comm_L (∪)).
  - intros e He Hs Ht. apply revealEdges_spec. right. exists e.
    rewrite Hed. done.
Qed.

Lemma reveal_iter (j k : nat) (ordered : list Node.t) (edges : list Edge.t)
    (c : Component) (st : Replay.t) :
  NoDup (nodeIds ordered) → k + j ≤ length ordered →
  liveReplayStateRef c = Some st → revealedAfter k ordered edges st →
  ∃ st', liveReplayStateRef (Nat.iter j reveal c) = Some st'
         ∧ revealedAfter (k + j) ordered edges st'.
Proof.
  intros Hnd Hk Hc Hinv. induction j as [|j IH].
  - exists st. by rewrite Nat.add_0_r.
  - destruct IH as (st' & Hst' & Hinv'); [lia|].
    cbn [Nat.iter]. rewrite Nat.add_succ_r.
    eapply reveal_step; [exact Hnd|lia|exact Hst'|exact Hinv'].
Qed.

Lemma replayStart_ordered (g : Graph.data) :
  Replay.ordered (replayStart g) ≡ₚ Graph.dnodes g.
Proof. apply sortBy_Permutation. Qed.

Lemma replayStart_empty (g : Graph.data) :
  revealedAfter 0 (Replay.ordered (replayStart g)) (Graph.dedges g) (replayStart g).
Proof.
  split; [done|]. split; [done|]. split; [done|].
  intros e _ Hs _. cbn in Hs. by apply not_elem_of_empty in Hs.
Qed.

Lemma revealedAfter_all (g : Graph.data) (st : Replay.t) :
  revealedAfter (length (Graph.dnodes g)) (Replay.ordered (replayStart g))
    (Graph.dedges g) st →
  Replay.visibleNodes st = list_to_set (nodeIds (Graph.dnodes g)) ∧
  ∀ e, e ∈ Graph.dedges g →
       endpointId (Edge.source e) ∈ nodeIds (Graph.dnodes g) →
       endpointId (Edge.target e) ∈ nodeIds (Graph.dnodes g) →
       edgeKey (endpointId (Edge.source e)) (endpointId (Edge.target e))
         ∈ Replay.visibleEdges st.
Proof.
  intros (_ & _ & Hvis & Hedges).
  assert (Replay.visibleNodes st = list_to_set (nodeIds (Graph.dnodes g))) as Hall.
  { rewrite Hvis, take_ge by (by rewrite replayStart_ordered).
    apply set_eq. intros x. rewrite !elem_of_list_to_set.
    unfold nodeIds. by rewrite replayStart_ordered. }
  split; [done|].
  intros e He Hs Ht. apply Hedges; [done| |]; rewrite Hall;
    by apply elem_of_list_to_set.
Qed.

(** C2.  In a graph of N nodes with pairwise distinct ids, N ticks from the
    record [startLiveReplay] stores (both sets empty) leave a record whose
    visible nodes are exactly the ids of the graph and whose visible edges
    hold the key of every edge with both endpoints among them. *)
Theorem replay_complete_after_N_ticks (g : Graph.data) (c : Component) :
  NoDup (nodeIds (Graph.dnodes g)) →
  liveReplayStateRef c = Some (replayStart g) →
  ∃ st, liveReplayStateRef (Nat.iter (length (Graph.dnodes g)) reveal c) = Some st ∧
        Replay.visibleNodes st = list_to_set (nodeIds (Graph.dnodes g)) ∧
        ∀ e, e ∈ Graph.dedges g →
             endpointId (Edge.source e) ∈ nodeIds (Graph.dnodes g) →
             endpointId (Edge.target e) ∈ nodeIds (Graph.dnodes g) →
             edgeKey (endpointId (Edge.source e)) (endpointId (Edge.target e))
               ∈ Replay.visibleEdges st.
Proof.
  intros Hnd Hc.
  destruct (reveal_iter (length (Graph.dnodes g)) 0 (Replay.ordered (replayStart g))
              (Graph.dedges g) c (replayStart g)) as (st & Hst & Hinv).
  - unfold nodeIds. by rewrite replayStart_ordered.
  - by rewrite replayStart_ordered.
  - exact Hc.
  - apply replayStart_empty.
  - exists st. split; [exact Hst|]. by apply revealedAfter_all.
Qed.

Lemma replay_complete_after_N_ticks_witness :
  ∃ st, liveReplayStateRef
          (Nat.iter 2 reveal
             (mkComponent stateAB None (Some (replayStart (State.graphData stateAB))) true))
        = Some st ∧
        Replay.visibleNodes st = list_to_set ["A"; "B"] ∧
        ∀ e, e ∈ [edgeBA] →
             endpointId (Edge.source e) ∈ ["A"; "B"] →
             endpointId (Edge.target e) ∈ ["A"; "B"] →
             edgeKey (endpointId (Edge.source e)) (endpointId (Edge.target e))
               ∈ Replay.visibleEdges st.
Proof.
  refine (replay_complete_after_N_ticks (State.graphData stateAB)
            (mkComponent stateAB None (Some (replayStart (State.graphData stateAB))) true)
            _ _); [|reflexivity].
  apply (bool_decide_unpack _). vm_compute. exact I.
Defined.

(** ** Further properties *)

Section OrderingFacts.
Variable localeCompare : string → string → Z.
Hypothesis localeCompare_antisym :
  ∀ s t, Z.sgn (localeCompare t s) = (- Z.sgn (localeCompare s t))%Z.

Lemma compareLex_antisym (a b : list KeyPart) :
  Z.sgn (compareLex localeCompare b a) = (- Z.sgn (compareLex localeCompare a b))%Z.
Proof.
  revert b. induction a as [|av a IH]; intros [|bv b]; try reflexivity.
  cbn [compareLex].
  destruct av as [x|s], bv as [y|t];
    try (rewrite (String.eqb_sym (keyString _) (keyString _));
         destruct (String.eqb _ _); cbn [negb];
         [apply IH | apply localeCompare_antisym]).
  destruct (Z.eqb_spec x y), (Z.eqb_spec y x); cbn [negb]; try lia.
  apply IH.
Qed.

(** X2.  For a collation whose sign flips when its arguments are swapped,
    so does the sign of [compareFirstOccurrence]: it never ranks a before b
    and b before a, and it ranks no node before itself. *)
Theorem compareFirstOccurrence_antisymmetric (a b : Node.t) :
  Z.sgn (compareFirstOccurrence localeCompare b a)
  = (- Z.sgn (compareFirstOccurrence localeCompare a b))%Z
  ∧ compareFirstOccurrence localeCompare a a = 0%Z.
Proof.
  assert (∀ a b, Z.sgn (compareFirstOccurrence localeCompare b a)
                 = (- Z.sgn (compareFirstOccurrence localeCompare a b))%Z) as Hanti.
  { clear a b. intros a b. unfold compareFirstOccurrence, bothDiffer. cbv zeta.
    destruct (lineOf a) as [la|], (lineOf b) as [lb|]; cbn [isNull negb andb];
      try reflexivity.
    - destruct (Z.eqb_spec la lb), (Z.eqb_spec lb la); cbn [negb]; try lia.
      all: destruct (colOf a) as [ca|], (colOf b) as [cb|];
        try (destruct (Z.eqb_spec ca cb), (Z.eqb_spec cb ca); cbn [negb]; try lia);
        destruct (JsString.nonEmpty (labelOf a)), (JsString.nonEmpty (labelOf b));
        cbn [negb andb]; try reflexivity;
        first [apply compareLex_antisym | apply localeCompare_antisym].
    - destruct (colOf a) as [ca|], (colOf b) as [cb|];
        try (destruct (Z.eqb_spec ca cb), (Z.eqb_spec cb ca); cbn [negb]; try lia);
        destruct (JsString.nonEmpty (labelOf a)), (JsString.nonEmpty (labelOf b));
        cbn [negb andb]; try reflexivity;
        first [apply compareLex_antisym | apply localeCompare_antisym]. }
  split; [apply Hanti|].
  specialize (Hanti a a). lia.
Qed.
End OrderingFacts.

Lemma codeUnitCompare_antisym (s t : string) :
  Z.sgn (codeUnitCompare t s) = (- Z.sgn (codeUnitCompare s t))%Z.
Proof.
  revert t. induction s as [|x s IH]; intros [|y t]; try reflexivity.
  cbn [codeUnitCompare]. rewrite (Nat.eqb_sym (JsString.code y)).
  destruct (Nat.eqb_spec (JsString.code x) (JsString.code y)); [apply IH|lia].
Qed.

Lemma compareFirstOccurrence_antisymmetric_witness :
  Z.sgn (compareFirstOccurrence codeUnitCompare cycleB cycleA)
  = (- Z.sgn (compareFirstOccurrence codeUnitCompare cycleA cycleB))%Z
  ∧ compareFirstOccurrence codeUnitCompare cycleA cycleA = 0%Z.
Proof.
  exact (compareFirstOccurrence_antisymmetric codeUnitCompare
           codeUnitCompare_antisym cycleA cycleB).
Defined.

(** The labels of the specification's scenario: VIII:3-2-3 sorts
    after I:5-1-5 and before VIII:3-2-4, whatever the collation. *)
Theorem label_scenario (localeCompare : string → string → Z) :
  (0 < compareLex localeCompare (labelSortKey "VIII:3-2-3") (labelSortKey "I:5-1-5"))%Z ∧
  (compareLex localeCompare (labelSortKey "VIII:3-2-3") (labelSortKey "VIII:3-2-4") < 0)%Z.
Proof. split; vm_compute; reflexivity. Qed.

(** X4.  The adjacency indices of the processed graph are rebuilt from the
    whole normalized edge list: under an id the outgoing index lists, in edge
    order, the entries of exactly the edges with that source, and the
    incoming index those with that target. *)
Theorem processGraphData_adjacency
    (localeCompare : string → string → Z) (g : Graph.data) (k : string) :
  let p := processGraphData localeCompare g in
  default [] (Graph.outgoingEdgesBySource p !! k)
  = entryOf <$> filter (λ e, endpointId (Edge.source e) = k) (Graph.edges p)
  ∧ default [] (Graph.incomingEdgesByTarget p !! k)
  = entryOf <$> filter (λ e, endpointId (Edge.target e) = k) (Graph.edges p).
Proof. cbv zeta. apply buildAdjacency_lookup. Qed.

(** The specification's scenario: the raw edge from A to B tagged
    uses_result is normalized to the used_in edge from B to A, and the
    incoming index under A holds its entry. *)
Theorem uses_result_scenario :
  let g := Graph.mkData [nodeA; nodeB]
             [Edge.mk (EndId "A") (EndId "B") (Some "uses_result") None None None None] in
  let p := processGraphData codeUnitCompare g in
  Graph.edges p = [edgeBA] ∧
  Graph.incomingEdgesByTarget p !! "A" = Some [Adj.mk "B" "A" "used_in"] ∧
  Node.orderIndex <$> (Graph.nodes p) = [Some 1%Z; Some 2%Z].
Proof. cbv zeta. repeat split; vm_compute; reflexivity. Qed.

(** [unfoldLess] lowers the depth by one but never below 1. *)
Theorem unfoldLess_depth
    (proofSubgraph : option string → Z → gmap string (list Adj.entry)
                     → gset string * gset string)
    (s : State.t) :
  State.proofDepth (unfoldLess proofSubgraph s)
  = if State.proofMode s then Z.max 1 (State.proofDepth s - 1) else State.proofDepth s.
Proof. unfold unfoldLess. by destruct (State.proofMode s). Qed.

(** X6.  [startLiveReplay] on a graph of N >= 1 nodes with distinct ids
    performs the first tick itself and installs the timer; N - 1 timer ticks
    later every node id is visible and so is the key of every edge between
    nodes of the graph. *)
Theorem startLiveReplay_then_ticks (handle : positive) (c : Component) :
  let g := State.graphData (state c) in
  Graph.dnodes g ≠ [] →
  NoDup (nodeIds (Graph.dnodes g)) →
  liveReplayTimerRef (startLiveReplay handle c) = Some handle ∧
  ∃ st, liveReplayStateRef
          (Nat.iter (length (Graph.dnodes g) - 1) reveal (startLiveReplay handle c))
        = Some st ∧
        Replay.visibleNodes st = list_to_set (nodeIds (Graph.dnodes g)) ∧
        ∀ e, e ∈ Graph.dedges g →
             endpointId (Edge.source e) ∈ nodeIds (Graph.dnodes g) →
             endpointId (Edge.target e) ∈ nodeIds (Graph.dnodes g) →
             edgeKey (endpointId (Edge.source e)) (endpointId (Edge.target e))
               ∈ Replay.visibleEdges st.
Proof.
  cbv zeta. intros Hne Hnd.
  set (g := State.graphData (state c)) in *.
  assert (NoDup (nodeIds (Replay.ordered (replayStart g)))) as Hnd'.
  { unfold nodeIds. by rewrite replayStart_ordered. }
  assert (length (Replay.ordered (replayStart g)) = length (Graph.dnodes g)) as Hlen.
  { by rewrite replayStart_ordered. }
  assert (0 < length (Graph.dnodes g)) as Hpos.
  { destruct (Graph.dnodes g); [done|cbn; lia]. }
  unfold startLiveReplay. fold g.
  destruct (Graph.dnodes g) as [|n ns] eqn:Hnodes; [done|].
  set (c0 := mkComponent _ None (Some (replayStart g)) true).
  destruct (reveal_step 0 (Replay.ordered (replayStart g)) (Graph.dedges g) c0
              (replayStart g)) as (st1 & Hst1 & Hinv1);
    [exact Hnd'|lia|reflexivity|apply replayStart_empty|].
  split; [reflexivity|].
  destruct (reveal_iter (length (n :: ns) - 1) 1 (Replay.ordered (replayStart g))
              (Graph.dedges g)
              (mkComponent (state (reveal c0)) (Some handle)
                 (liveReplayStateRef (reveal c0)) (liveReplayRunning (reveal c0)))
              st1) as (st & Hst & Hinv);
    [exact Hnd'|lia|exact Hst1|exact Hinv1|].
  exists st. split; [exact Hst|].
  rewrite <- Hnodes. apply revealedAfter_all. rewrite Hnodes.
  replace (length (n :: ns)) with (1 + (length (n :: ns) - 1)) at 1 by lia.
  exact Hinv.
Qed.

Lemma startLiveReplay_then_ticks_witness :
  liveReplayTimerRef (startLiveReplay 7 componentAB) = Some 7%positive ∧
  ∃ st, liveReplayStateRef (Nat.iter 1 reveal (startLiveReplay 7 componentAB)) = Some st ∧
        Replay.visibleNodes st = list_to_set ["A"; "B"] ∧
        ∀ e, e ∈ [edgeBA] →
             endpointId (Edge.source e) ∈ ["A"; "B"] →
             endpointId (Edge.target e) ∈ ["A"; "B"] →
             edgeKey (endpointId (Edge.source e)) (endpointId (Edge.target e))
               ∈ Replay.visibleEdges st.
Proof.
  refine (startLiveReplay_then_ticks 7 componentAB _ _).
  - vm_compute. discriminate.
  - apply (bool_decide_unpack _). vm_compute. exact I.
Defined.

(** X7.  Once the N nodes are revealed the next tick stops the replay, and
    every later tick leaves the component as it is. *)
Theorem reveal_exhausted (g : Graph.data) (c : Component) :
  NoDup (nodeIds (Graph.dnodes g)) →
  liveReplayStateRef c = Some (replayStart g) →
  let cN := Nat.iter (length (Graph.dnodes g)) reveal c in
  reveal cN = stopLiveReplay cN ∧ reveal (reveal cN) = reveal cN.
Proof.
  cbv zeta. intros Hnd Hc.
  assert (NoDup (nodeIds (Replay.ordered (replayStart g)))) as Hnd'.
  { unfold nodeIds. by rewrite replayStart_ordered. }
  destruct (reveal_iter (length (Graph.dnodes g)) 0 (Replay.ordered (replayStart g))
              (Graph.dedges g) c (replayStart g)) as (st & Hst & Hinv);
    [exact Hnd'|by rewrite replayStart_ordered|exact Hc|apply replayStart_empty|].
  assert (reveal (Nat.iter (length (Graph.dnodes g)) reveal c)
          = stopLiveReplay (Nat.iter (length (Graph.dnodes g)) reveal c)) as Hstop.
  { destruct Hinv as (Hord & _ & Hvis & _).
    unfold reveal at 1. rewrite Hst, Hord, Hvis.
    rewrite take_ge by (by rewrite replayStart_ordered).
    rewrite size_list_to_set by exact Hnd'.
    unfold nodeIds. rewrite length_fmap.
    by rewrite (proj2 (lookup_ge_None _ _) (le_n _)). }
  split; [exact Hstop|]. by rewrite Hstop.
Qed.

Lemma reveal_exhausted_witness :
  let c := mkComponent stateAB None (Some (replayStart (State.graphData stateAB))) true in
  reveal (Nat.iter 2 reveal c) = stopLiveReplay (Nat.iter 2 reveal c)
  ∧ reveal (reveal (Nat.iter 2 reveal c)) = reveal (Nat.iter 2 reveal c).
Proof.
  refine (reveal_exhausted (State.graphData stateAB)
            (mkComponent stateAB None (Some (replayStart (State.graphData stateAB))) true)
            _ _); [|reflexivity].
  apply (bool_decide_unpack _). vm_compute. exact I.
Defined.

(** Labels alone can run in a circle too.  Under a collation that
    orders the digit strings 10, 5, 8 as strings (10 before 5 before 8), the
    node labelled X:1 sorts before the node labelled 5 and that one before
    the node labelled VIII:1 (number against string, compared as strings),
    yet VIII:1 sorts before X:1 (8 against 10, compared as numbers). *)
Theorem compareFirstOccurrence_label_cycle (localeCompare : string → string → Z) :
  (localeCompare "10" "5" < 0)%Z → (localeCompare "5" "8" < 0)%Z →
  (compareFirstOccurrence localeCompare labelX label5 < 0)%Z ∧
  (compareFirstOccurrence localeCompare label5 labelVIII < 0)%Z ∧
  (compareFirstOccurrence localeCompare labelVIII labelX < 0)%Z.
Proof.
  intros H1 H2. split; [exact H1|]. split; [exact H2|]. vm_compute. reflexivity.
Qed.

Lemma compareFirstOccurrence_label_cycle_witness :
  (compareFirstOccurrence codeUnitCompare labelX label5 < 0)%Z ∧
  (compareFirstOccurrence codeUnitCompare label5 labelVIII < 0)%Z ∧
  (compareFirstOccurrence codeUnitCompare labelVIII labelX < 0)%Z.
Proof.
  apply (compareFirstOccurrence_label_cycle codeUnitCompare);
    vm_compute; reflexivity.
Defined.

(** ** More on [romanToInt] *)

Lemma romanValue_cases (c : ascii) :
  romanValue c ∈ [0; 1; 5; 10; 50; 100; 500; 1000]%Z.
Proof.
  unfold romanValue.
  repeat match goal with |- context [Ascii.eqb c ?x] => destruct (Ascii.eqb c x) end;
    set_solver.
Qed.

(** Each denomination is at least twice the next smaller one, so a letter
    that is subtracted never outweighs the letter after it. *)
Lemma romanValue_double (c d : ascii) :
  (romanValue c < romanValue d → 2 * romanValue c ≤ romanValue d)%Z.
Proof.
  pose proof (romanValue_cases c) as Hc. pose proof (romanValue_cases d) as Hd.
  set_unfold. lia.
Qed.

Lemma romanLoop_shift (s : string) (out : Z) :
  romanLoop s out = (out + romanLoop s 0)%Z.
Proof.
  revert out. induction s as [|c rest IH]; intros out; cbn [romanLoop]; [lia|].
  cbv zeta. rewrite IH. symmetry. rewrite IH.
  destruct (romanValue c <? nextValue rest)%Z; lia.
Qed.

Lemma romanLoop_lower_bound (s : string) :
  (nextValue s ≤ romanLoop s 0)%Z.
Proof.
  induction s as [|c rest IH]; [reflexivity|].
  cbn [romanLoop nextValue]. cbv zeta. rewrite romanLoop_shift.
  assert (0 ≤ nextValue rest)%Z as Hnn.
  { destruct rest as [|d r]; [reflexivity|].
    cbn. pose proof (romanValue_cases d). set_unfold. lia. }
  destruct (Z.ltb_spec (romanValue c) (nextValue rest)) as [Hlt|Hge]; [|lia].
  assert (2 * romanValue c ≤ nextValue rest)%Z.
  { destruct rest as [|d r]; [cbn in Hlt|by apply romanValue_double].
    pose proof (romanValue_cases c). set_unfold. lia. }
  lia.
Qed.

Lemma romanLoop_positive (s : string) :
  existsb (λ c, negb (romanValue c =? 0)%Z) (JsString.chars s) = true →
  (0 < romanLoop s 0)%Z.
Proof.
  induction s as [|c rest IH]; [done|].
  cbn [JsString.chars String.list_ascii_of_string existsb]. intros H.
  pose proof (romanLoop_lower_bound (String c rest)) as Hlow. cbn [nextValue] in Hlow.
  pose proof (romanValue_cases c) as Hc.
  destruct (Z.eqb_spec (romanValue c) 0) as [H0|Hne]; [|set_unfold; lia].
  cbn [negb orb] in H. specialize (IH H).
  cbn [romanLoop]. cbv zeta. rewrite romanLoop_shift, H0.
  destruct (0 <? nextValue rest)%Z; lia.
Qed.

(** X9.  On ASCII input [romanToInt] returns 0 exactly for the inputs that
    hold none of the seven letters; on every other ASCII input, well formed
    or not, the result is positive and at least the value of the first
    character. *)
Theorem romanToInt_zero_iff (s : string) :
  JsString.isAscii s = true →
  (romanToInt s = 0%Z ↔ hasRomanLetter s = false) ∧
  (0 ≤ romanToInt s)%Z ∧
  (nextValue (JsString.toUpperCase s) ≤ romanToInt s)%Z.
Proof.
  intros _.
  assert (hasRomanLetter s
          = existsb (λ c, negb (romanValue c =? 0)%Z)
              (JsString.chars (JsString.toUpperCase s))) as Hhas.
  { rewrite chars_toUpperCase. unfold hasRomanLetter.
    induction (JsString.chars s) as [|c l IH]; [reflexivity|].
    cbn. by rewrite IH. }
  assert (romanToInt s = romanLoop (JsString.toUpperCase s) 0) as Hval.
  { unfold romanToInt. cbv zeta.
    by destruct (Z.eqb_spec (romanLoop (JsString.toUpperCase s) 0) 0). }
  pose proof (romanLoop_lower_bound (JsString.toUpperCase s)) as Hlow.
  assert (0 ≤ nextValue (JsString.toUpperCase s))%Z as Hnn.
  { destruct (JsString.toUpperCase s) as [|d r]; [reflexivity|].
    cbn. pose proof (romanValue_cases d). set_unfold. lia. }
  rewrite Hval, Hhas. split; [|lia].
  destruct (existsb _ _) eqn:He.
  - apply romanLoop_positive in He. split; [lia|done].
  - split; [done|]. intros _. by apply romanLoop_no_letter.
Qed.

Lemma romanToInt_zero_iff_witness :
  (romanToInt "iiii" = 0%Z ↔ hasRomanLetter "iiii" = false) ∧
  (0 ≤ romanToInt "iiii")%Z ∧
  (nextValue (JsString.toUpperCase "iiii") ≤ romanToInt "iiii")%Z.
Proof. apply romanToInt_zero_iff. reflexivity. Defined.

(** ** Normalizing twice *)

Lemma normalizeEdge_shape (e e' : Edge.t) :
  normalizeEdge e = Some e' →
  e' = Edge.relabel "used_in" e ∨ e' = Edge.flip "used_in" e
  ∨ e' = Edge.flip "generalized_by" e
  ∨ (e' = Edge.flip "internal" e ∧ classifiedInternal e)
  ∨ (e' = e ∧ depOf e ≠ "used_in" ∧ depOf e ≠ "generalized_by"
     ∧ ¬ (depOf e = "internal" ∧ classifiedInternal e)).
Proof.
  rewrite (normalizeEdge_of_tag e (depOf e) eq_refl), refOf_internal.
  destruct (String.eqb_spec (depOf e) "used_in"); [intros [= <-]; auto|].
  destruct (_ || _ || _); [intros [= <-]; auto|].
  destruct (String.eqb_spec (depOf e) "is_generalization_of"); [intros [= <-]; auto|].
  destruct (String.eqb_spec (depOf e) "generalized_by"); [intros [= <-]; auto|].
  cbn [orb].
  destruct (String.eqb_spec (depOf e) "internal") as [Hi|Hi]; cbn [andb].
  - destruct (isStr (refOf e) "internal" || isStr (typOf e) "internal") eqn:Hc.
    + intros [= <-]. auto 6.
    + destruct (String.eqb (depOf e) "provides_remark"); [done|].
      intros [= <-]. do 4 right. repeat split; try done.
      intros [_ Hcl]. by rewrite Hcl in Hc.
  - destruct (String.eqb (depOf e) "provides_remark"); [done|].
    intros [= <-]. do 4 right. repeat split; try done. by intros [? _].
Qed.

Lemma depOf_generalized (e : Edge.t) :
  Edge.dependency_type e = Some "generalized_by" → depOf e = "generalized_by".
Proof. intros H. by apply depOf_present. Qed.

(** X5.  What a second pass of the normalizer does to an edge it has already
    normalized.  An edge that came out as generalized_by, or as internal with
    an internal classifier, is swapped again, back to its raw endpoints; every
    other normalized edge is left as it is.  So the normalizer is to be run
    once on raw edges, not on its own output. *)
Theorem normalizeEdge_twice (e e' : Edge.t) :
  normalizeEdge e = Some e' →
  (Edge.dependency_type e' = Some "generalized_by"
   ∨ (tagDefaultsToInternal e' ∧ classifiedInternal e') →
   ∃ e'', normalizeEdge e' = Some e''
          ∧ Edge.source e'' = Edge.source e ∧ Edge.target e'' = Edge.target e
          ∧ Edge.dependency_type e'' = Edge.dependency_type e') ∧
  (Edge.dependency_type e' ≠ Some "generalized_by" →
   ¬ (tagDefaultsToInternal e' ∧ classifiedInternal e') →
   normalizeEdge e' = Some e').
Proof.
  intros Hn.
  destruct (normalizeEdge_shape e e' Hn)
    as [->|[->|[->|[[-> Hcl]|(-> & Hu & Hg & Hi)]]]].
  - split; [|reflexivity].
    intros [H|[[H|[H|H]] _]]; discriminate H.
  - split; [|reflexivity].
    intros [H|[[H|[H|H]] _]]; discriminate H.
  - split; [|by intros []].
    intros _. eexists. split; [reflexivity|done].
  - assert (classifiedInternal (Edge.flip "internal" e)) as Hcl' by exact Hcl.
    assert (tagDefaultsToInternal (Edge.flip "internal" e)) as Ht'
      by (right; right; reflexivity).
    split; [|by intros _ []].
    intros _. exists (Edge.flip "internal" (Edge.flip "internal" e)).
    split; [|done].
    rewrite (normalizeEdge_of_tag _ "internal" (depOf_default _ Ht')).
    apply refOf_internal in Hcl'. cbn. by rewrite Hcl'.
  - split; [|done].
    intros [H|[Ht Hc]].
    + by apply depOf_generalized in H.
    + destruct Hi. split; [by apply depOf_default|done].
Qed.

Lemma normalizeEdge_twice_witness :
  ∃ e'', normalizeEdge (Edge.mk (EndId "B") (EndId "A") (Some "generalized_by")
                          None None None None) = Some e''
         ∧ Edge.source e'' = EndId "A" ∧ Edge.target e'' = EndId "B"
         ∧ Edge.dependency_type e'' = Some "generalized_by".
Proof.
  refine (proj1 (normalizeEdge_twice
            (Edge.mk (EndId "A") (EndId "B") (Some "is_generalization_of")
               None None None None)
            (Edge.mk (EndId "B") (EndId "A") (Some "generalized_by")
               None None None None) _) _);
    [reflexivity|left; reflexivity].
Defined.

(** ** Proof mode over sequences of actions *)

Section ProofModeFacts.
Variable getMaxPrereqDepth : option string → gmap string (list Adj.entry) → Z.
Variable proofSubgraph :
  option string → Z → gmap string (list Adj.entry) → gset string * gset string.

Local Abbreviation more := (unfoldMore getMaxPrereqDepth proofSubgraph).
Local Abbreviation less := (unfoldLess proofSubgraph).
Local Abbreviation maxOf s :=
  (getMaxPrereqDepth (State.proofTargetId s) (State.incomingEdgesByTarget s)).

Lemma recompute_coherent (s : State.t) :
  coherent proofSubgraph (recomputeProofSubgraph proofSubgraph s).
Proof. unfold coherent. cbn. by destruct (proofSubgraph _ _ _). Qed.

Lemma recompute_frame (s : State.t) :
  let s' := recomputeProofSubgraph proofSubgraph s in
  State.proofMode s' = State.proofMode s ∧
  State.proofTargetId s' = State.proofTargetId s ∧
  State.proofDepth s' = State.proofDepth s ∧
  State.incomingEdgesByTarget s' = State.incomingEdgesByTarget s.
Proof. done. Qed.

Lemma more_frame (s : State.t) :
  State.proofMode (more s) = State.proofMode s ∧
  State.proofTargetId (more s) = State.proofTargetId s ∧
  State.incomingEdgesByTarget (more s) = State.incomingEdgesByTarget s ∧
  (coherent proofSubgraph s → coherent proofSubgraph (more s)).
Proof.
  unfold unfoldMore. destruct (State.proofMode s) eqn:Hm; cbn [negb]; [|done].
  destruct (maxOf s <=? State.proofDepth s)%Z; [done|].
  repeat split; try done. intros _. apply recompute_coherent.
Qed.

Lemma less_frame (s : State.t) :
  State.proofMode (less s) = State.proofMode s ∧
  State.proofTargetId (less s) = State.proofTargetId s ∧
  State.incomingEdgesByTarget (less s) = State.incomingEdgesByTarget s ∧
  (coherent proofSubgraph s → coherent proofSubgraph (less s)).
Proof.
  unfold unfoldLess. destruct (State.proofMode s) eqn:Hm; cbn [negb]; [|done].
  repeat split; try done. intros _. apply recompute_coherent.
Qed.

Lemma more_depth (s : State.t) :
  State.proofMode s = true →
  State.proofDepth (more s)
  = if (maxOf s <=? State.proofDepth s)%Z then State.proofDepth s
    else Z.min (maxOf s) (State.proofDepth s + 1).
Proof.
  intros Hm. unfold unfoldMore. rewrite Hm. cbn [negb].
  by destruct (maxOf s <=? State.proofDepth s)%Z.
Qed.

Lemma less_depth (s : State.t) :
  State.proofMode s = true →
  State.proofDepth (less s) = Z.max 1 (State.proofDepth s - 1).
Proof. intros Hm. unfold unfoldLess. by rewrite Hm. Qed.

(** X8.  After [enterProofMode] on a target, whatever sequence of unfold-more
    and unfold-less actions follows: proof mode stays on, the target stays the
    same, the visible sets are the subgraph of the current depth, and the
    depth stays between 1 and the greatest prerequisite depth of the target
    (or is 1 when that is below 1). *)
Theorem proof_depth_invariant (targetId : string) (s : State.t)
    (acts : list ProofAction) :
  let s0 := enterProofMode proofSubgraph targetId s in
  let sN := runProof getMaxPrereqDepth proofSubgraph s0 acts in
  let M := getMaxPrereqDepth (Some targetId) (State.incomingEdgesByTarget s) in
  State.proofMode sN = true ∧
  State.proofTargetId sN = Some targetId ∧
  coherent proofSubgraph sN ∧
  (1 ≤ State.proofDepth sN ≤ Z.max 1 M)%Z.
Proof.
  cbv zeta. unfold runProof.
  induction acts as [|a acts IH] using rev_ind.
  - cbn [foldl]. repeat split; try done; [apply recompute_coherent|cbn; lia].
  - rewrite foldl_app. cbn [foldl].
    set (sK := foldl _ _ acts) in *.
    destruct IH as (Hm & Ht & Hc & Hd).
    assert (State.incomingEdgesByTarget sK = State.incomingEdgesByTarget s) as Hi.
    { subst sK. clear. induction acts as [|a acts IH] using rev_ind; [done|].
      rewrite foldl_app. cbn [foldl]. rewrite <- IH.
      destruct a; [apply more_frame|apply less_frame]. }
    destruct a; cbn [stepProof].
    + destruct (more_frame sK) as (Hm' & Ht' & _ & Hc').
      rewrite Hm', Ht', Hm, Ht. repeat split; auto.
      all: rewrite more_depth by done; rewrite Ht, Hi;
        destruct (Z.leb_spec
                    (getMaxPrereqDepth (Some targetId) (State.incomingEdgesByTarget s))
                    (State.proofDepth sK)); lia.
    + destruct (less_frame sK) as (Hm' & Ht' & _ & Hc').
      rewrite Hm', Ht', Hm, Ht. repeat split; auto.
      all: rewrite less_depth by done; lia.
Qed.

(** X18.  In proof mode with coherent visible sets, unfold-more followed by
    unfold-less gives back the state it started from when there was a deeper
    layer to unfold, and unfold-less followed by unfold-more does when the
    depth was above 1 and within the greatest prerequisite depth. *)
Theorem unfold_round_trip (s : State.t) :
  State.proofMode s = true → coherent proofSubgraph s →
  ((1 ≤ State.proofDepth s < maxOf s)%Z → less (more s) = s) ∧
  ((1 < State.proofDepth s ≤ maxOf s)%Z → more (less s) = s).
Proof.
  intros Hm Hc. unfold coherent in Hc.
  destruct s as [pin pn pm tgt d vn ve g byId inc]. cbn in *. subst pm.
  split; intros Hd.
  - unfold unfoldMore. cbn.
    destruct (Z.leb_spec (getMaxPrereqDepth tgt inc) d); [lia|].
    unfold unfoldLess, recomputeProofSubgraph, set_proofDepth. cbn.
    replace (Z.max 1 (Z.min (getMaxPrereqDepth tgt inc) (d + 1) - 1)) with d by lia.
    by rewrite <- Hc.
  - unfold unfoldLess. cbn. unfold unfoldMore. cbn.
    destruct (Z.leb_spec (getMaxPrereqDepth tgt inc) (Z.max 1 (d - 1))); [lia|].
    unfold recomputeProofSubgraph, set_proofDepth. cbn.
    replace (Z.min (getMaxPrereqDepth tgt inc) (Z.max 1 (d - 1) + 1)) with d by lia.
    by rewrite <- Hc.
Qed.

(** X19.  Pressing unfold-more k times after entering proof mode leaves the
    depth at the smaller of 1 + k and the greatest prerequisite depth (at 1
    when that is below 1): the depth climbs one layer per press until the
    deepest layer and then stays. *)
Theorem unfoldMore_iterated (targetId : string) (s : State.t) (k : nat) :
  let M := getMaxPrereqDepth (Some targetId) (State.incomingEdgesByTarget s) in
  State.proofDepth (Nat.iter k more (enterProofMode proofSubgraph targetId s))
  = Z.min (Z.max 1 M) (1 + Z.of_nat k).
Proof.
  cbv zeta.
  set (M := getMaxPrereqDepth (Some targetId) (State.incomingEdgesByTarget s)).
  set (s0 := enterProofMode proofSubgraph targetId s).
  assert (State.proofMode (Nat.iter k more s0) = true
          ∧ State.proofTargetId (Nat.iter k more s0) = Some targetId
          ∧ State.incomingEdgesByTarget (Nat.iter k more s0)
            = State.incomingEdgesByTarget s
          ∧ State.proofDepth (Nat.iter k more s0)
            = Z.min (Z.max 1 M) (1 + Z.of_nat k)) as H; [|apply H].
  induction k as [|k (Hm & Ht & Hi & Hd)].
  - repeat split. cbn. lia.
  - change (Nat.iter (S k) more s0) with (more (Nat.iter k more s0)).
    destruct (more_frame (Nat.iter k more s0)) as (Hm' & Ht' & Hi' & _).
    rewrite Hm', Ht', Hi'. repeat split; try done.
    rewrite more_depth by done. rewrite Ht, Hi, Hd. fold M.
    destruct (Z.leb_spec M (Z.min (Z.max 1 M) (1 + Z.of_nat k))); lia.
Qed.
End ProofModeFacts.

Lemma unfold_round_trip_witness :
  let sub : option string → Z → gmap string (list Adj.entry) → gset string * gset string :=
    λ _ d _, (if (d <=? 1)%Z then {["A"]} else {["A"; "B"]}, ∅) in
  let s := State.mk true None true (Some "A") 1 {["A"]} ∅ graphAB ∅ ∅ in
  unfoldLess sub (unfoldMore (λ _ _, 3%Z) sub s) = s.
Proof.
  cbv zeta.
  refine (proj1 (unfold_round_trip (λ _ _, 3%Z)
                   (λ _ d _, (if (d <=? 1)%Z then {["A"]} else {["A"; "B"]}, ∅))
                   (State.mk true None true (Some "A") 1 {["A"]} ∅ graphAB ∅ ∅)
                   eq_refl eq_refl) _).
  cbn. lia.
Defined.

(** ** More on the live replay *)

Lemma reveal_running (c : Component) (st st' : Replay.t) :
  liveReplayStateRef c = Some st →
  liveReplayStateRef (reveal c) = Some st' →
  ∃ next, Replay.ordered st !! size (Replay.visibleNodes st) = Some next ∧
          st' = Replay.mk (Replay.ordered st) (Replay.edges st)
                  ({[Node.id next]} ∪ Replay.visibleNodes st)
                  (revealEdges ({[Node.id next]} ∪ Replay.visibleNodes st)
                     (Replay.edges st) (Replay.visibleEdges st)) ∧
          liveReplayTimerRef (reveal c) = liveReplayTimerRef c ∧
          liveReplayRunning (reveal c) = liveReplayRunning c.
Proof.
  intros Hc. unfold reveal. rewrite Hc.
  destruct (Replay.ordered st !! size (Replay.visibleNodes st)) as [next|];
    [|done].
  intros [= <-]. by exists next.
Qed.

Lemma reveal_idle (c : Component) :
  liveReplayStateRef c = None → reveal c = c.
Proof. intros H. unfold reveal. by rewrite H. Qed.

Lemma reveal_state (c : Component) : state (reveal c) = state c.
Proof.
  unfold reveal. destruct (liveReplayStateRef c) as [st|]; [|done].
  by destruct (Replay.ordered st !! size (Replay.visibleNodes st)).
Qed.

Lemma reveal_iter_state (k : nat) (c : Component) :
  state (Nat.iter k reveal c) = state c.
Proof.
  induction k as [|k IH]; [done|].
  change (Nat.iter (S k) reveal c) with (reveal (Nat.iter k reveal c)).
  by rewrite reveal_state.
Qed.

Lemma replayStart_sound (g : Graph.data) : replaySound g (replayStart g).
Proof.
  split; [done|]. split; [done|]. split.
  - intros x Hx. cbn in Hx. by apply not_elem_of_empty in Hx.
  - intros key Hk. cbn in Hk. by apply not_elem_of_empty in Hk.
Qed.

Lemma reveal_sound (g : Graph.data) (c : Component) (st st' : Replay.t) :
  liveReplayStateRef c = Some st → replaySound g st →
  liveReplayStateRef (reveal c) = Some st' →
  replaySound g st' ∧
  Replay.visibleNodes st ⊆ Replay.visibleNodes st' ∧
  Replay.visibleEdges st ⊆ Replay.visibleEdges st'.
Proof.
  intros Hc (Hord & Hed & Hn & He) Hc'.
  destruct (reveal_running c st st' Hc Hc') as (next & Hnext & -> & _).
  cbn. split; [split; [done|split; [done|split]]|split].
  - intros x [Hx|Hx]%elem_of_union; [|by apply Hn].
    apply elem_of_singleton in Hx as ->.
    unfold nodeIds. rewrite <- (replayStart_ordered g), <- Hord.
    apply list_elem_of_fmap. exists next. split; [done|].
    by eapply list_elem_of_lookup_2.
  - intros key [Hk|(e & Hin & Hs & Ht & ->)]%revealEdges_spec.
    + destruct (He key Hk) as (e & Hin & -> & Hs & Ht).
      exists e. repeat split; try done; apply elem_of_union; by right.
    + exists e. rewrite <- Hed. done.
  - intros x Hx. apply elem_of_union. by right.
  - intros key Hk. apply revealEdges_spec. by left.
Qed.

(** X16.  However many ticks a replay of a graph has run, and whether or not
    ids repeat: as long as it is running it shows only ids of nodes of the
    graph and only keys of edges of the graph whose two endpoints are shown,
    and a tick never takes anything back from either set. *)
Theorem replay_sound_and_growing (g : Graph.data) (c : Component) (k : nat) :
  liveReplayStateRef c = Some (replayStart g) →
  ∀ st', liveReplayStateRef (Nat.iter (S k) reveal c) = Some st' →
  ∃ st, liveReplayStateRef (Nat.iter k reveal c) = Some st ∧
        replaySound g st ∧ replaySound g st' ∧
        Replay.visibleNodes st ⊆ Replay.visibleNodes st' ∧
        Replay.visibleEdges st ⊆ Replay.visibleEdges st'.
Proof.
  intros Hc.
  assert (∀ j st, liveReplayStateRef (Nat.iter j reveal c) = Some st →
                  replaySound g st) as Hall.
  { intros j. induction j as [|j IH]; intros st Hst.
    - cbn in Hst. rewrite Hc in Hst. injection Hst as <-. apply replayStart_sound.
    - change (Nat.iter (S j) reveal c) with (reveal (Nat.iter j reveal c)) in Hst.
      destruct (liveReplayStateRef (Nat.iter j reveal c)) as [st0|] eqn:H0.
      + by destruct (reveal_sound g _ st0 st H0 (IH st0 eq_refl) Hst).
      + rewrite (reveal_idle _ H0) in Hst. congruence. }
  intros st' Hst'.
  change (Nat.iter (S k) reveal c) with (reveal (Nat.iter k reveal c)) in Hst'.
  destruct (liveReplayStateRef (Nat.iter k reveal c)) as [st|] eqn:Hk.
  - exists st. split; [done|].
    destruct (reveal_sound g _ st st' Hk (Hall k st Hk) Hst') as (? & ? & ?).
    split; [by apply (Hall k)|done].
  - rewrite (reveal_idle _ Hk) in Hst'. congruence.
Qed.

Lemma replay_sound_and_growing_witness :
  let c := mkComponent stateAB None (Some (replayStart graphAB)) true in
  let st' := default (replayStart graphAB) (liveReplayStateRef (Nat.iter 2 reveal c)) in
  ∃ st, liveReplayStateRef (Nat.iter 1 reveal c) = Some st ∧
        replaySound graphAB st ∧ replaySound graphAB st' ∧
        Replay.visibleNodes st ⊆ Replay.visibleNodes st' ∧
        Replay.visibleEdges st ⊆ Replay.visibleEdges st'.
Proof.
  cbv zeta.
  refine (replay_sound_and_growing graphAB
            (mkComponent stateAB None (Some (replayStart graphAB)) true) 1 eq_refl _ _).
  vm_compute. reflexivity.
Defined.

Lemma reveal_ref_indep (c1 c2 : Component) :
  liveReplayStateRef c1 = liveReplayStateRef c2 →
  liveReplayStateRef (reveal c1) = liveReplayStateRef (reveal c2).
Proof.
  intros H. unfold reveal. rewrite H.
  destruct (liveReplayStateRef c2) as [st|] eqn:E; [|congruence].
  by destruct (Replay.ordered st !! size (Replay.visibleNodes st)).
Qed.

Lemma startLiveReplay_unfold (h : positive) (c : Component) :
  Graph.dnodes (State.graphData (state c)) ≠ [] →
  ∃ s', startLiveReplay h c
        = mkComponent
            (state (reveal (mkComponent s' None
                              (Some (replayStart (State.graphData (state c)))) true)))
            (Some h)
            (liveReplayStateRef
               (reveal (mkComponent s' None
                          (Some (replayStart (State.graphData (state c)))) true)))
            (liveReplayRunning
               (reveal (mkComponent s' None
                          (Some (replayStart (State.graphData (state c)))) true)))
        ∧ State.graphData s' = State.graphData (state c).
Proof.
  intros Hne. unfold startLiveReplay.
  destruct (Graph.dnodes (State.graphData (state c))); [done|].
  eexists. split; reflexivity.
Qed.

Lemma first_tick_running (s : State.t) (g : Graph.data) :
  Graph.dnodes g ≠ [] →
  liveReplayRunning (reveal (mkComponent s None (Some (replayStart g)) true)) = true.
Proof.
  intros Hne. unfold reveal. cbn [liveReplayStateRef].
  destruct (Replay.ordered (replayStart g) !! size (Replay.visibleNodes (replayStart g)))
    as [next|] eqn:H0; [done|].
  apply lookup_ge_None in H0. rewrite replayStart_ordered in H0.
  change (Replay.visibleNodes (replayStart g)) with (∅ : gset string) in H0.
  rewrite size_empty in H0. destruct (Graph.dnodes g); [done|cbn in H0; lia].
Qed.

(** X17.  Starting a replay while one is running (or after one has stopped)
    starts over: whatever was revealed is dropped, the record is the one of
    a fresh start on the same graph, and the timer handle is the new one. *)
Theorem startLiveReplay_restarts (h h' : positive) (c : Component) (k : nat) :
  Graph.dnodes (State.graphData (state c)) ≠ [] →
  let c' := startLiveReplay h' (Nat.iter k reveal (startLiveReplay h c)) in
  liveReplayStateRef c' = liveReplayStateRef (startLiveReplay h c) ∧
  liveReplayTimerRef c' = Some h' ∧
  liveReplayRunning c' = true.
Proof.
  cbv zeta. intros Hne.
  destruct (startLiveReplay_unfold h c Hne) as (s1 & H1 & Hg1).
  assert (State.graphData (state (Nat.iter k reveal (startLiveReplay h c)))
          = State.graphData (state c)) as Hg.
  { rewrite reveal_iter_state, H1. cbn [state]. by rewrite reveal_state. }
  destruct (startLiveReplay_unfold h' (Nat.iter k reveal (startLiveReplay h c)))
    as (s2 & H2 & Hg2); [by rewrite Hg|].
  rewrite H2, Hg. cbn [liveReplayStateRef liveReplayTimerRef liveReplayRunning].
  split; [|split; [done|by apply first_tick_running]].
  rewrite H1. cbn [liveReplayStateRef]. by apply reveal_ref_indep.
Qed.

Lemma startLiveReplay_restarts_witness :
  let c' := startLiveReplay 9 (Nat.iter 1 reveal (startLiveReplay 7 componentAB)) in
  liveReplayStateRef c' = liveReplayStateRef (startLiveReplay 7 componentAB) ∧
  liveReplayTimerRef c' = Some 9%positive ∧
  liveReplayRunning c' = true.
Proof.
  refine (startLiveReplay_restarts 7 9 componentAB 1 _).
  vm_compute. discriminate.
Defined.

Lemma reveal_next (c : Component) (st : Replay.t) (next : Node.t) :
  liveReplayStateRef c = Some st →
  Replay.ordered st !! size (Replay.visibleNodes st) = Some next →
  reveal c
  = mkComponent (state c) (liveReplayTimerRef c)
      (Some (Replay.mk (Replay.ordered st) (Replay.edges st)
               ({[Node.id next]} ∪ Replay.visibleNodes st)
               (revealEdges ({[Node.id next]} ∪ Replay.visibleNodes st)
                  (Replay.edges st) (Replay.visibleEdges st))))
      (liveReplayRunning c).
Proof. intros Hc Hn. unfold reveal. by rewrite Hc, Hn. Qed.

(** X20.  A repeated id stalls the replay.  If the node the cursor points at
    has an id that is already visible, a tick changes neither the set of
    visible nodes nor the cursor: the replay shows no further node, however
    many ticks follow, and never stops by itself. *)
Theorem replay_stalls_on_repeated_id (c : Component) (st : Replay.t)
    (next : Node.t) (k : nat) :
  liveReplayStateRef c = Some st →
  Replay.ordered st !! size (Replay.visibleNodes st) = Some next →
  Node.id next ∈ Replay.visibleNodes st →
  ∃ st', liveReplayStateRef (Nat.iter k reveal c) = Some st' ∧
         Replay.visibleNodes st' = Replay.visibleNodes st ∧
         Replay.ordered st' = Replay.ordered st ∧
         liveReplayTimerRef (Nat.iter k reveal c) = liveReplayTimerRef c.
Proof.
  intros Hc Hnext Hin. induction k as [|k (st' & Hst' & Hvis & Hord & Ht)].
  - by exists st.
  - change (Nat.iter (S k) reveal c) with (reveal (Nat.iter k reveal c)).
    rewrite (reveal_next _ st' next Hst') by (by rewrite Hord, Hvis).
    eexists. split; [reflexivity|]. cbn. rewrite Hvis. split; [|done].
    apply set_eq. intros x. rewrite elem_of_union, elem_of_singleton.
    split; [intros [->|?]; done|by right].
Qed.

Lemma replay_stalls_on_repeated_id_witness :
  ∃ st', liveReplayStateRef
           (Nat.iter 5 reveal
              (Nat.iter 1 reveal
                 (mkComponent stateAB None (Some (replayStart graphTwins)) true)))
         = Some st' ∧
         Replay.visibleNodes st' = {["A"]} ∧
         Replay.ordered st' = Graph.dnodes graphTwins ∧
         liveReplayTimerRef
           (Nat.iter 5 reveal
              (Nat.iter 1 reveal
                 (mkComponent stateAB None (Some (replayStart graphTwins)) true)))
         = None.
Proof.
  refine (replay_stalls_on_repeated_id
            (Nat.iter 1 reveal
               (mkComponent stateAB None (Some (replayStart graphTwins)) true))
            (Replay.mk (Graph.dnodes graphTwins) [] {["A"]} ∅)
            (Node.mk "A" "lemma" None None (Some 2%Z)) 5 _ _ _).
  - vm_compute. reflexivity.
  - vm_compute. reflexivity.
  - cbn. by apply elem_of_singleton.
Defined.

(** ** The sort, on comparators that are total *)

Section SortFacts.
Context {A : Type} (cmp : A → A → Z).

Local Abbreviation before := (λ x y : A, (cmp x y ≤ 0)%Z).

Lemma insertBy_elem (x y : A) (l : list A) :
  y ∈ insertBy cmp x l ↔ y = x ∨ y ∈ l.
Proof.
  induction l as [|z l IH]; cbn.
  - rewrite elem_of_cons, elem_of_nil. tauto.
  - destruct (cmp x z <=? 0)%Z; rewrite !elem_of_cons; [tauto|].
    rewrite IH. tauto.
Qed.

Lemma insertBy_Sorted (x : A) (l : list A) :
  (∀ y, y ∈ l → (cmp x y ≤ 0 ∨ cmp y x ≤ 0)%Z) →
  Sorted before l → Sorted before (insertBy cmp x l).
Proof.
  intros Htot Hs. induction Hs as [|z l Hs IH Hhd]; cbn.
  - by repeat constructor.
  - destruct (Z.leb_spec (cmp x z) 0) as [Hle|Hgt].
    + constructor; [by constructor|by constructor].
    + constructor.
      * apply IH. intros y Hy. apply Htot. by right.
      * assert (cmp z x ≤ 0)%Z as Hzx.
        { destruct (Htot z) as [?|?]; [by left|lia|done]. }
        destruct Hhd as [|w l' Hzw]; cbn; [by constructor|].
        destruct (cmp x w <=? 0)%Z; by constructor.
Qed.

Lemma sortBy_Sorted (l : list A) :
  (∀ x y, x ∈ l → y ∈ l → (cmp x y ≤ 0 ∨ cmp y x ≤ 0)%Z) →
  Sorted before (sortBy cmp l).
Proof.
  induction l as [|x l IH]; intros Htot; [constructor|].
  cbn [sortBy foldr]. apply insertBy_Sorted.
  - intros y Hy. apply Htot; [by left|].
    right. by rewrite <- (sortBy_Permutation cmp l).
  - apply IH. intros y z Hy Hz. apply Htot; by right.
Qed.

Lemma sortBy_of_Sorted (l : list A) : Sorted before l → sortBy cmp l = l.
Proof.
  induction 1 as [|x l Hs IH Hhd]; [done|].
  cbn [sortBy foldr]. fold (sortBy cmp l). rewrite IH.
  destruct Hhd as [|y l' Hxy]; [done|]. cbn.
  by destruct (Z.leb_spec (cmp x y) 0); [|lia].
Qed.
End SortFacts.

Lemma Sorted_restricted_strongly {A} (R : relation A) (l : list A) :
  (∀ x y z, x ∈ l → y ∈ l → z ∈ l → R x y → R y z → R x z) →
  Sorted R l → StronglySorted R l.
Proof.
  intros Htr Hs. induction Hs as [|x l Hs IH Hhd]; [constructor|].
  assert (StronglySorted R l) as Hss.
  { apply IH. intros a b c Ha Hb Hc. apply Htr; by right. }
  constructor; [done|].
  destruct Hhd as [|y l' Hxy]; [constructor|].
  apply StronglySorted_inv in Hss as [_ Hall].
  constructor; [done|].
  rewrite Forall_forall in Hall |- *. intros z Hz.
  apply (Htr x y z); [by left|right; by left|by do 2 right|done|by apply Hall].
Qed.

Lemma StronglySorted_lookup_lt {A} (R : relation A) (l : list A)
    (i j : nat) (a b : A) :
  StronglySorted R l → l !! i = Some a → l !! j = Some b → i < j → R a b.
Proof.
  intros Hss. revert i j. induction Hss as [|x l Hss IH Hall]; intros i j Hi Hj Hlt;
    [done|].
  destruct j as [|j]; [lia|]. cbn in Hj. destruct i as [|i]; cbn in Hi.
  - injection Hi as ->. rewrite Forall_forall in Hall.
    apply Hall. by eapply list_elem_of_lookup_2.
  - apply (IH i j); [done|done|lia].
Qed.

Lemma StronglySorted_strict {A} (cmp : A → A → Z) (l : list A) :
  (∀ x y, x ∈ l → y ∈ l → cmp x y = 0%Z → x = y) →
  NoDup l →
  StronglySorted (λ x y, (cmp x y ≤ 0)%Z) l →
  StronglySorted (λ x y, (cmp x y < 0)%Z) l.
Proof.
  intros Heq Hnd Hss. induction Hss as [|x l Hss IH Hall]; [constructor|].
  apply NoDup_cons in Hnd as [Hx Hnd]. constructor.
  - apply IH; [|done]. intros a b Ha Hb. apply Heq; by right.
  - rewrite Forall_forall in Hall |- *. intros y Hy.
    specialize (Hall y Hy).
    destruct (Z.eq_dec (cmp x y) 0) as [H0|]; [|lia].
    apply Heq in H0; [|by left|by right]. by subst y.
Qed.

(** ** The sort, on consistent comparators *)

Section ConsistentSort.
Context {A : Type} (cmp : A → A → Z).

Lemma consistentOn_total (l : list A) (x y : A) :
  consistentOn cmp l → x ∈ l → y ∈ l → (cmp x y ≤ 0 ∨ cmp y x ≤ 0)%Z.
Proof. intros [Hanti _] Hx Hy. specialize (Hanti x y Hx Hy). lia. Qed.

Lemma sortBy_consistent_sorted (l : list A) :
  consistentOn cmp l → StronglySorted (λ x y, (cmp x y ≤ 0)%Z) (sortBy cmp l).
Proof.
  intros Hc. apply Sorted_restricted_strongly.
  - intros x y z Hx Hy Hz. rewrite (sortBy_Permutation cmp l) in Hx, Hy, Hz.
    by apply (proj2 Hc).
  - apply sortBy_Sorted. intros x y. by apply consistentOn_total.
Qed.

Lemma insertBy_filter (P : A → Prop) `{!∀ x, Decision (P x)} (x : A) (l : list A) :
  (P x → ∀ z, z ∈ l → P z → (cmp x z ≤ 0)%Z) →
  filter P (insertBy cmp x l) = filter P (x :: l).
Proof.
  induction l as [|z l IH]; intros Hle; [done|].
  cbn [insertBy]. destruct (Z.leb_spec (cmp x z) 0) as [Hxz|Hxz]; [done|].
  rewrite (filter_cons P z), IH by (intros Hx w Hw; apply Hle; [done|by right]).
  rewrite !(filter_cons P x), !(filter_cons P z).
  destruct (decide (P x)) as [Hx|Hx]; [|done].
  destruct (decide (P z)) as [Hz|Hz]; [|done].
  specialize (Hle Hx z (list_elem_of_here _ _) Hz). lia.
Qed.

Lemma sortBy_stable (l : list A) (x : A) :
  consistentOn cmp l → x ∈ l →
  filter (λ y, cmp x y = 0%Z) (sortBy cmp l) = filter (λ y, cmp x y = 0%Z) l.
Proof.
  intros [Hanti Htr] Hx.
  assert (∀ k, k ⊆ l →
            filter (λ y, cmp x y = 0%Z) (sortBy cmp k)
            = filter (λ y, cmp x y = 0%Z) k) as Hgen.
  { induction k as [|z k IH]; intros Hsub; [done|].
    cbn [sortBy foldr]. fold (sortBy cmp k).
    assert (z ∈ l) as Hz by (apply Hsub; by left).
    assert (k ⊆ l) as Hk by (intros w Hw; apply Hsub; by right).
    rewrite insertBy_filter.
    - rewrite !(filter_cons _ z), IH by done. done.
    - intros Hxz w Hw Hxw. rewrite (sortBy_Permutation cmp k) in Hw.
      apply (Htr z x w); [done|done|by apply Hk| |lia].
      specialize (Hanti x z Hx Hz). lia. }
  by apply Hgen.
Qed.
End ConsistentSort.

(** ** The order of the processed nodes *)

Lemma graphPositioned_consistent :
  consistentOn (compareFirstOccurrence codeUnitCompare) (Graph.dnodes graphPositioned).
Proof.
  split.
  - intros x y Hx Hy. cbn in Hx, Hy. set_unfold.
    destruct Hx as [->|[->|[]]], Hy as [->|[->|[]]]; vm_compute; reflexivity.
  - intros x y z Hx Hy Hz. cbn in Hx, Hy, Hz. set_unfold.
    destruct Hx as [->|[->|[]]], Hy as [->|[->|[]]], Hz as [->|[->|[]]];
      vm_compute; congruence.
Qed.

(** C5.  Whatever order indices the nodes came with, the nodes of the
    processed graph are all the nodes of the input, sorted, and the node at
    position i of the sorted order has order index i + 1: over the N nodes
    the indices are exactly 1, 2, ..., N.  Where [compareFirstOccurrence] is
    a consistent comparator on the nodes, the sorted order is pinned: a node
    with a smaller order index never compares after one with a larger order
    index, and nodes that compare equal keep the order the input had them
    in. *)
Theorem processGraphData_orderIndex_dense
    (localeCompare : string → string → Z) (g : Graph.data) :
  let cmp := compareFirstOccurrence localeCompare in
  let ns := Graph.nodes (processGraphData localeCompare g) in
  let sorted := sortBy cmp (Graph.dnodes g) in
  stripOrder <$> ns ≡ₚ stripOrder <$> Graph.dnodes g ∧
  length ns = length (Graph.dnodes g) ∧
  (∀ (i : nat) (n : Node.t), ns !! i = Some n →
     Node.orderIndex n = Some (Z.of_nat i + 1)%Z ∧
     ∃ n0, sorted !! i = Some n0 ∧ n = Node.set_orderIndex (Z.of_nat i + 1) n0) ∧
  Node.orderIndex <$> ns
    = (λ k, Some (Z.of_nat k)) <$> seq 1 (length (Graph.dnodes g)) ∧
  (consistentOn cmp (Graph.dnodes g) →
     (∀ (a b : Node.t) (p q : Z), a ∈ ns → b ∈ ns →
        Node.orderIndex a = Some p → Node.orderIndex b = Some q → (p < q)%Z →
        (cmp a b ≤ 0)%Z) ∧
     (∀ x, x ∈ Graph.dnodes g →
        filter (λ y, cmp x y = 0%Z) sorted
        = filter (λ y, cmp x y = 0%Z) (Graph.dnodes g))).
Proof.
  cbv zeta. cbn [processGraphData Graph.nodes]. repeat split.
  - rewrite assignOrderIndex_strip. f_equiv. apply sortBy_Permutation.
  - unfold assignOrderIndex. by rewrite length_imap, sortBy_length.
  - unfold assignOrderIndex in H. rewrite list_lookup_imap in H.
    destruct (sortBy _ _ !! i); by simplify_eq/=.
  - unfold assignOrderIndex in H. rewrite list_lookup_imap in H.
    destruct (sortBy _ _ !! i) as [n0|]; simplify_eq/=. by exists n0.
  - by rewrite assignOrderIndex_values, sortBy_length.
  - intros a b p q [i Hi]%list_elem_of_lookup [j Hj]%list_elem_of_lookup Hp Hq Hlt.
    unfold assignOrderIndex in Hi, Hj. rewrite list_lookup_imap in Hi, Hj.
    destruct (sortBy _ _ !! i) as [a0|] eqn:Ha; simplify_eq/=.
    destruct (sortBy _ _ !! j) as [b0|] eqn:Hb; simplify_eq/=.
    change (compareFirstOccurrence localeCompare a0 b0 ≤ 0)%Z.
    apply (StronglySorted_lookup_lt
             (λ a b, (compareFirstOccurrence localeCompare a b ≤ 0)%Z)
             (sortBy (compareFirstOccurrence localeCompare) (Graph.dnodes g))
             i j a0 b0);
      [by apply sortBy_consistent_sorted|done|done|lia].
  - intros x Hx. by apply sortBy_stable.
Qed.

Lemma processGraphData_orderIndex_dense_witness :
  consistentOn (compareFirstOccurrence codeUnitCompare) (Graph.dnodes graphPositioned) ∧
  filter (λ y, compareFirstOccurrence codeUnitCompare cycleA y = 0%Z)
    (sortBy (compareFirstOccurrence codeUnitCompare) (Graph.dnodes graphPositioned))
  = filter (λ y, compareFirstOccurrence codeUnitCompare cycleA y = 0%Z)
      (Graph.dnodes graphPositioned).
Proof.
  split; [exact graphPositioned_consistent|].
  refine (proj2 (proj2 (proj2 (proj2 (proj2
            (processGraphData_orderIndex_dense codeUnitCompare graphPositioned))))
            graphPositioned_consistent) cycleA _).
  apply list_elem_of_here.
Defined.
(** ** Code-unit order of strings *)

Lemma code_inj (x y : ascii) : JsString.code x = JsString.code y → x = y.
Proof.
  unfold JsString.code. intros H.
  by rewrite <- (ascii_nat_embedding x), <- (ascii_nat_embedding y), H.
Qed.

Lemma codeUnitCompare_eq (s t : string) : codeUnitCompare s t = 0%Z → s = t.
Proof.
  revert t. induction s as [|x s IH]; intros [|y t]; cbn; try done.
  destruct (Nat.eqb_spec (JsString.code x) (JsString.code y)) as [Hc|Hc]; [|lia].
  intros H. f_equal; [by apply code_inj|by apply IH].
Qed.

Lemma codeUnitCompare_trans (s t u : string) :
  (codeUnitCompare s t ≤ 0 → codeUnitCompare t u ≤ 0 → codeUnitCompare s u ≤ 0)%Z.
Proof.
  revert t u. induction s as [|x s IH]; intros [|y t] [|z u]; cbn; try lia.
  destruct (Nat.eqb_spec (JsString.code x) (JsString.code y)),
           (Nat.eqb_spec (JsString.code y) (JsString.code z)),
           (Nat.eqb_spec (JsString.code x) (JsString.code z)); try lia.
  apply IH.
Qed.

Lemma codeUnitCompare_total (s t : string) :
  (codeUnitCompare s t ≤ 0 ∨ codeUnitCompare t s ≤ 0)%Z.
Proof. pose proof (codeUnitCompare_antisym s t). lia. Qed.

Lemma codeUnit_sorted_unique (l1 l2 : list string) :
  Sorted (λ s t, (codeUnitCompare s t ≤ 0)%Z) l1 →
  Sorted (λ s t, (codeUnitCompare s t ≤ 0)%Z) l2 →
  l1 ≡ₚ l2 → l1 = l2.
Proof.
  apply @Sorted_unique_strong.
  - intros s t u. apply codeUnitCompare_trans.
  - intros s t _ _ H1 H2. apply codeUnitCompare_eq.
    pose proof (codeUnitCompare_antisym s t). lia.
Qed.

(** ** Type and colour partitions *)

Lemma uniq_snoc (xs : list string) (x : string) :
  uniq (xs ++ [x]) = if bool_decide (x ∈ uniq xs) then uniq xs else uniq xs ++ [x].
Proof. unfold uniq. by rewrite foldl_app. Qed.

Lemma uniq_spec (xs : list string) :
  NoDup (uniq xs) ∧ ∀ x, x ∈ uniq xs ↔ x ∈ xs.
Proof.
  induction xs as [|x xs [Hnd Hel]] using rev_ind.
  - split; [constructor|done].
  - rewrite uniq_snoc. case_bool_decide as Hin.
    + split; [done|]. intros y. rewrite elem_of_app, list_elem_of_singleton, Hel.
      split; [by left|]. intros [?|Hy]; [done|]. subst y. by apply Hel.
    + split.
      * apply NoDup_app. split; [done|]. split; [|apply NoDup_singleton].
        intros y Hy Hy'. apply list_elem_of_singleton in Hy'. by subst y.
      * intros y. rewrite !elem_of_app, Hel. done.
Qed.

Lemma CANONICAL_NoDup : NoDup CANONICAL_NODE_TYPE_ORDER.
Proof. apply (bool_decide_unpack _). vm_compute. exact I. Qed.

Lemma orderedNodeTypes_perm (types : list string) :
  NoDup types → orderedNodeTypes types ≡ₚ types.
Proof.
  intros Hnd. unfold orderedNodeTypes.
  rewrite sortBy_Permutation.
  etrans; [|apply (filter_app_complement (λ t, t ∈ CANONICAL_NODE_TYPE_ORDER) types)].
  f_equiv. apply NoDup_Permutation.
  - apply NoDup_filter, CANONICAL_NoDup.
  - by apply NoDup_filter.
  - intros t. rewrite !list_elem_of_filter. tauto.
Qed.

Lemma orderedNodeTypes_ext (types1 types2 : list string) :
  NoDup types1 → NoDup types2 → (∀ t, t ∈ types1 ↔ t ∈ types2) →
  orderedNodeTypes types1 = orderedNodeTypes types2.
Proof.
  intros Hnd1 Hnd2 Hel. unfold orderedNodeTypes. f_equal.
  - apply list_filter_iff. intros t. apply Hel.
  - apply codeUnit_sorted_unique.
    + apply sortBy_Sorted. intros; apply codeUnitCompare_total.
    + apply sortBy_Sorted. intros; apply codeUnitCompare_total.
    + rewrite !sortBy_Permutation. apply NoDup_Permutation.
      * by apply NoDup_filter.
      * by apply NoDup_filter.
      * intros t. rewrite !list_elem_of_filter, Hel. tauto.
Qed.

Lemma setProperty_lookup_ne {V} (key t : string) (v : V) (acc : gmap string V) :
  key ≠ t → setProperty key v acc !! t = acc !! t.
Proof.
  intros Hne. unfold setProperty. destruct (String.eqb key "__proto__"); [done|].
  by rewrite lookup_insert_ne.
Qed.

Lemma setProperty_lookup {V} (key : string) (v : V) (acc : gmap string V) :
  key ≠ "__proto__" → setProperty key v acc !! key = Some v.
Proof.
  intros Hne. unfold setProperty.
  destruct (String.eqb_spec key "__proto__"); [done|]. by rewrite lookup_insert_eq.
Qed.

Lemma setProperty_proto {V} (key : string) (v : V) (acc : gmap string V) :
  setProperty key v acc !! "__proto__" = acc !! "__proto__".
Proof.
  unfold setProperty. destruct (String.eqb_spec key "__proto__"); [done|].
  by rewrite lookup_insert_ne.
Qed.

Lemma colorFrom_absent (palette types : list string) (t : string) :
  t ∉ types →
  ∀ (i : nat) (acc : gmap string (option string)),
    colorFrom palette i types acc !! t = acc !! t.
Proof.
  induction types as [|u types IH]; intros Hnot i acc; [done|].
  apply not_elem_of_cons in Hnot as [Hne Hnot].
  cbn [colorFrom]. rewrite IH by done. by rewrite setProperty_lookup_ne.
Qed.

Lemma colorFrom_proto (palette types : list string) :
  ∀ (i : nat) (acc : gmap string (option string)),
    colorFrom palette i types acc !! "__proto__" = acc !! "__proto__".
Proof.
  induction types as [|u types IH]; intros i acc; [done|].
  cbn [colorFrom]. by rewrite IH, setProperty_proto.
Qed.

Lemma colorFrom_lookup (palette types : list string) (j : nat) (t : string) :
  NoDup types → types !! j = Some t → t ≠ "__proto__" →
  ∀ (i : nat) (acc : gmap string (option string)),
    colorFrom palette i types acc !! t
    = Some (palette !! ((i + j) mod length palette)).
Proof.
  intros Hnd. revert j. induction Hnd as [|u types Hu Hnd IH]; intros j Hj Hp i acc;
    [done|].
  cbn [colorFrom]. destruct j as [|j]; cbn in Hj.
  - injection Hj as ->. rewrite colorFrom_absent by done.
    rewrite setProperty_lookup by done. by rewrite Nat.add_0_r.
  - rewrite (IH j Hj Hp). do 3 f_equal. lia.
Qed.

Lemma orderedNodeTypes_split (types : list string) :
  NoDup types →
  ∃ canon others,
    orderedNodeTypes types = canon ++ others ∧
    canon `sublist_of` CANONICAL_NODE_TYPE_ORDER ∧
    Forall (λ t, t ∉ CANONICAL_NODE_TYPE_ORDER) others ∧
    StronglySorted (λ s t, (codeUnitCompare s t < 0)%Z) others.
Proof.
  intros Hnd. eexists _, _. split; [reflexivity|]. split; [apply sublist_filter|].
  split.
  - apply Forall_forall. intros t Ht. rewrite sortBy_Permutation in Ht.
    by apply list_elem_of_filter in Ht as [Ht _].
  - apply StronglySorted_strict.
    + intros x y _ _. apply codeUnitCompare_eq.
    + rewrite sortBy_Permutation. by apply NoDup_filter.
    + apply Sorted_restricted_strongly.
      * intros x y z _ _ _. apply codeUnitCompare_trans.
      * apply sortBy_Sorted. intros; apply codeUnitCompare_total.
Qed.

Lemma nodeTypes_spec (nodes : list Node.t) :
  NoDup (nodeTypes nodes) ∧
  ∀ t, t ∈ nodeTypes nodes ↔ ∃ n, n ∈ nodes ∧ Node.type n = t.
Proof.
  unfold nodeTypes. destruct (uniq_spec (Node.type <$> nodes)) as [Hnd Hel].
  split; [done|]. intros t. rewrite Hel, list_elem_of_fmap.
  split; [intros (x & -> & Hx); eauto|intros (x & Hx & <-); eauto].
Qed.

Lemma nodeColors_facts (palette : list string) (nodes : list Node.t) :
  NoDup (orderedNodeTypes (nodeTypes nodes)) ∧
  (∀ t, t ∈ orderedNodeTypes (nodeTypes nodes) ↔ ∃ n, n ∈ nodes ∧ Node.type n = t) ∧
  (∀ j t, orderedNodeTypes (nodeTypes nodes) !! j = Some t → t ≠ "__proto__" →
     nodeColors palette nodes !! t = Some (palette !! (j mod length palette))) ∧
  (∀ t, t ∉ orderedNodeTypes (nodeTypes nodes) → nodeColors palette nodes !! t = None).
Proof.
  destruct (nodeTypes_spec nodes) as [Hnd Hel].
  pose proof (orderedNodeTypes_perm _ Hnd) as Hp.
  assert (NoDup (orderedNodeTypes (nodeTypes nodes))) as Hnd' by (by rewrite Hp).
  split; [done|]. split; [|split].
  - intros t. by rewrite Hp.
  - intros j t Hj Ht. unfold nodeColors. by rewrite (colorFrom_lookup _ _ j t).
  - intros t Ht. unfold nodeColors. by rewrite colorFrom_absent.
Qed.

(** X13.  How [processGraphData] colours node types.  The ordered type list
    holds every type that occurs among the nodes exactly once: first the
    canonical types that occur, in the order of the canonical list, then
    the types outside the canonical list, in ascending order of their code
    units.  The type at place j of that list gets the palette colour at
    index j modulo the palette length; a type that does not occur gets no
    entry, and neither does the type [__proto__], which names the prototype
    accessor of the colour object and not a property of it. *)
Theorem nodeColors_assignment (palette : list string) (nodes : list Node.t) :
  let ordered := orderedNodeTypes (nodeTypes nodes) in
  NoDup ordered ∧
  (∀ t, t ∈ ordered ↔ ∃ n, n ∈ nodes ∧ Node.type n = t) ∧
  (∃ canon others,
     ordered = canon ++ others ∧
     canon `sublist_of` CANONICAL_NODE_TYPE_ORDER ∧
     Forall (λ t, t ∉ CANONICAL_NODE_TYPE_ORDER) others ∧
     StronglySorted (λ s t, (codeUnitCompare s t < 0)%Z) others) ∧
  (∀ j t, ordered !! j = Some t → t ≠ "__proto__" →
     nodeColors palette nodes !! t = Some (palette !! (j mod length palette))) ∧
  (∀ t, t ∉ ordered → nodeColors palette nodes !! t = None) ∧
  nodeColors palette nodes !! "__proto__" = None.
Proof.
  cbv zeta. destruct (nodeColors_facts palette nodes) as (Hnd & Hel & Hcol & Habs).
  split; [done|]. split; [done|].
  split; [apply orderedNodeTypes_split, nodeTypes_spec|].
  split; [done|]. split; [done|].
  unfold nodeColors. by rewrite colorFrom_proto.
Qed.

Lemma processed_types (localeCompare : string → string → Z) (g : Graph.data) (t : string) :
  (∃ n, n ∈ Graph.nodes (processGraphData localeCompare g) ∧ Node.type n = t)
  ↔ ∃ n, n ∈ Graph.dnodes g ∧ Node.type n = t.
Proof.
  assert (∀ l : list Node.t, (∃ n, n ∈ l ∧ Node.type n = t)
               ↔ t ∈ Node.type <$> (stripOrder <$> l)) as Hstrip.
  { intros l. rewrite <- list_fmap_compose, list_elem_of_fmap.
    split; [intros (x & Hx & <-); eauto|intros (x & -> & Hx); eauto]. }
  rewrite !Hstrip. cbn [processGraphData Graph.nodes].
  by rewrite assignOrderIndex_strip, sortBy_Permutation.
Qed.

(** X14.  The colours do not depend on the order in which the nodes arrive,
    nor on how often a type occurs: two inputs in which the same node types
    occur get the same colour table from [processGraphData], whatever the
    collation and whatever the palette. *)
Theorem nodeColors_order_independent
    (localeCompare : string → string → Z) (palette : list string)
    (g1 g2 : Graph.data) :
  (∀ t, t ∈ Node.type <$> Graph.dnodes g1 ↔ t ∈ Node.type <$> Graph.dnodes g2) →
  nodeColors palette (Graph.nodes (processGraphData localeCompare g1))
  = nodeColors palette (Graph.nodes (processGraphData localeCompare g2)).
Proof.
  intros Hsame. unfold nodeColors. f_equal.
  destruct (nodeTypes_spec (Graph.nodes (processGraphData localeCompare g1)))
    as [Hnd1 Hel1].
  destruct (nodeTypes_spec (Graph.nodes (processGraphData localeCompare g2)))
    as [Hnd2 Hel2].
  apply orderedNodeTypes_ext; [done|done|].
  intros t. rewrite Hel1, Hel2, !processed_types.
  specialize (Hsame t). rewrite !list_elem_of_fmap in Hsame.
  split; intros (n & Hn & <-).
  - destruct (proj1 Hsame) as (m & Hm & ?); eauto.
  - destruct (proj2 Hsame) as (m & Hm & ?); eauto.
Qed.

Lemma nodeColors_order_independent_witness :
  nodeColors ["red"; "blue"]
    (Graph.nodes (processGraphData codeUnitCompare (Graph.mkData [nodeA; nodeB] [])))
  = nodeColors ["red"; "blue"]
      (Graph.nodes (processGraphData codeUnitCompare (Graph.mkData [nodeB; nodeA; nodeB] []))).
Proof.
  apply nodeColors_order_independent. intros t. cbn.
  rewrite !elem_of_cons, !elem_of_nil. tauto.
Defined.

(** X15.  With a palette of pairwise distinct colours that is at least as
    long as the list of node types, two different types that occur, neither
    of them [__proto__], get two different colours. *)
Theorem nodeColors_distinct (palette : list string) (nodes : list Node.t)
    (t1 t2 : string) :
  NoDup palette →
  length (orderedNodeTypes (nodeTypes nodes)) ≤ length palette →
  t1 ∈ orderedNodeTypes (nodeTypes nodes) →
  t2 ∈ orderedNodeTypes (nodeTypes nodes) →
  t1 ≠ "__proto__" → t2 ≠ "__proto__" →
  t1 ≠ t2 →
  ∃ c1 c2, nodeColors palette nodes !! t1 = Some (Some c1)
           ∧ nodeColors palette nodes !! t2 = Some (Some c2) ∧ c1 ≠ c2.
Proof.
  intros Hpal Hlen H1 H2 Hp1 Hp2 Hne.
  destruct (nodeColors_facts palette nodes) as (Hnd & _ & Hcol & _).
  apply list_elem_of_lookup in H1 as [j1 Hj1]. apply list_elem_of_lookup in H2 as [j2 Hj2].
  pose proof (lookup_lt_Some _ _ _ Hj1) as Hlt1.
  pose proof (lookup_lt_Some _ _ _ Hj2) as Hlt2.
  rewrite (Hcol j1 t1 Hj1 Hp1), (Hcol j2 t2 Hj2 Hp2).
  rewrite !Nat.mod_small by lia.
  destruct (lookup_lt_is_Some_2 palette j1) as [c1 Hc1]; [lia|].
  destruct (lookup_lt_is_Some_2 palette j2) as [c2 Hc2]; [lia|].
  exists c1, c2. rewrite Hc1, Hc2. split; [done|]. split; [done|].
  intros ->. pose proof (NoDup_lookup palette j1 j2 c2 Hpal Hc1 Hc2). congruence.
Qed.

Lemma nodeColors_distinct_witness :
  ∃ c1 c2, nodeColors ["red"; "blue"] [nodeA; nodeB] !! "theorem" = Some (Some c1)
           ∧ nodeColors ["red"; "blue"] [nodeA; nodeB] !! "lemma" = Some (Some c2)
           ∧ c1 ≠ c2.
Proof.
  apply nodeColors_distinct.
  - apply (bool_decide_unpack _). vm_compute. exact I.
  - vm_compute. lia.
  - apply (bool_decide_unpack _). vm_compute. exact I.
  - apply (bool_decide_unpack _). vm_compute. exact I.
  - discriminate.
  - discriminate.
  - discriminate.
Defined.

(** ** The node index *)

Lemma indexNodes_snoc (l : list Node.t) (n : Node.t) :
  indexNodes (l ++ [n]) = <[Node.id n := n]> (indexNodes l).
Proof. unfold indexNodes. by rewrite foldl_app. Qed.

Lemma indexNodes_lookup (l : list Node.t) (k : string) :
  indexNodes l !! k = last (filter (λ n, Node.id n = k) l).
Proof.
  induction l as [|n l IH] using rev_ind; [done|].
  rewrite indexNodes_snoc, filter_app, filter_cons, filter_nil.
  case_decide as Hk.
  - subst k. by rewrite lookup_insert_eq, last_snoc.
  - rewrite lookup_insert_ne by done. by rewrite app_nil_r.
Qed.

(** X12.  [nodeById] of the processed graph finds, under an id, the last
    node of the sorted list that carries it.  When the ids of the input are
    pairwise distinct, looking up an id gives a node exactly when that node
    is in the processed list under that id, and the node found carries its
    order index: position in the sorted list plus one. *)
Theorem processGraphData_nodeById
    (localeCompare : string → string → Z) (g : Graph.data) :
  let p := processGraphData localeCompare g in
  (∀ k, Graph.nodeById p !! k = last (filter (λ n, Node.id n = k) (Graph.nodes p))) ∧
  (NoDup (nodeIds (Graph.dnodes g)) →
   ∀ k n, Graph.nodeById p !! k = Some n ↔ n ∈ Graph.nodes p ∧ Node.id n = k) ∧
  (∀ k n, Graph.nodeById p !! k = Some n →
     ∃ i : nat, Graph.nodes p !! i = Some n ∧ Node.orderIndex n = Some (Z.of_nat i + 1)%Z).
Proof.
  cbv zeta. cbn [processGraphData Graph.nodeById Graph.nodes].
  set (ns := assignOrderIndex _).
  split; [intros k; apply indexNodes_lookup|]. split.
  - intros Hnd k n. rewrite indexNodes_lookup.
    assert (NoDup (Node.id <$> ns)) as Hnd'.
    { assert (Node.id <$> ns = Node.id <$> (stripOrder <$> ns)) as ->
        by (by rewrite <- list_fmap_compose).
      subst ns. rewrite assignOrderIndex_strip, <- list_fmap_compose.
      unfold nodeIds in Hnd. by rewrite sortBy_Permutation. }
    clear -Hnd'. induction ns as [|m ns IH] using rev_ind.
    { cbn. split; [done|]. intros [H _]. by apply elem_of_nil in H. }
    rewrite fmap_app in Hnd'. apply NoDup_app in Hnd' as (Hnd1 & Hdisj & _).
    rewrite filter_app, filter_cons, filter_nil, elem_of_app, list_elem_of_singleton.
    case_decide as Hk.
    + rewrite last_snoc. split; [intros [= ->]; auto|].
      intros [[Hin| ->] Hid]; [|done]. exfalso.
      apply (Hdisj (Node.id n)); [by apply list_elem_of_fmap_2|].
      cbn. rewrite Hid, <- Hk. apply list_elem_of_here.
    + rewrite app_nil_r, (IH Hnd1). split; [intros [? ?]; auto|].
      intros [[Hin| ->] Hid]; [done|done].
  - intros k n Hk. rewrite indexNodes_lookup in Hk.
    apply last_Some_elem_of, list_elem_of_filter in Hk as [_ Hin].
    apply list_elem_of_lookup in Hin as [i Hi]. exists i. split; [done|].
    subst ns. unfold assignOrderIndex in Hi. rewrite list_lookup_imap in Hi.
    destruct (sortBy _ _ !! i); by simplify_eq/=.
Qed.

Lemma processGraphData_nodeById_witness :
  Graph.nodeById (processGraphData codeUnitCompare graphAB) !! "A"
  = Some (Node.set_orderIndex 1 nodeA)
  ↔ Node.set_orderIndex 1 nodeA ∈ Graph.nodes (processGraphData codeUnitCompare graphAB)
    ∧ Node.id (Node.set_orderIndex 1 nodeA) = "A".
Proof.
  refine (proj1 (proj2 (processGraphData_nodeById codeUnitCompare graphAB)) _
            "A" (Node.set_orderIndex 1 nodeA)).
  apply (bool_decide_unpack _). vm_compute. exact I.
Defined.

Lemma edgeTypes_spec (edges : list Edge.t) :
  NoDup (edgeTypes edges) ∧
  ∀ t, t ∈ edgeTypes edges ↔ ∃ e, e ∈ edges ∧ depOf e = t.
Proof.
  unfold edgeTypes. destruct (uniq_spec (depOf <$> edges)) as [Hnd Hel].
  split; [done|]. intros t. rewrite Hel, list_elem_of_fmap.
  split; [intros (x & -> & Hx); eauto|intros (x & Hx & <-); eauto].
Qed.

(** ** The reading order on positioned, numbered nodes *)

Section PositionedOrder.
Variable localeCompare : string → string → Z.

Local Abbreviation cmp := (compareFirstOccurrence localeCompare).
Local Abbreviation lexNum :=
  (λ a b : list Z, compareLex localeCompare (KNum <$> a) (KNum <$> b)).

Lemma lexNum_trans (a b c : list Z) :
  (lexNum a b ≤ 0 → lexNum b c ≤ 0 → lexNum a c ≤ 0)%Z.
Proof.
  revert b c. induction a as [|x a IH]; intros [|y b] [|z c]; cbn; try lia.
  destruct (Z.eqb_spec x y), (Z.eqb_spec y z), (Z.eqb_spec x z); cbn; try lia.
  apply IH.
Qed.

Lemma lexNum_total (a b : list Z) : (lexNum a b ≤ 0 ∨ lexNum b a ≤ 0)%Z.
Proof.
  revert b. induction a as [|x a IH]; intros [|y b]; cbn; try lia.
  destruct (Z.eqb_spec x y), (Z.eqb_spec y x); cbn; try lia.
  apply IH.
Qed.

Lemma lexNum_zero (a b : list Z) : lexNum a b = 0%Z ↔ a = b.
Proof.
  revert b. induction a as [|x a IH]; intros [|y b]; cbn; try done.
  destruct (Z.eqb_spec x y) as [->|Hne]; cbn.
  - rewrite IH. split; [by intros ->|by intros [= ->]].
  - split; [lia|by intros [= ->]].
Qed.

Lemma lexNum_lt (a b : list Z) : (lexNum a b < 0)%Z ↔ lexLt a b.
Proof.
  revert b. induction a as [|x a IH]; intros [|y b]; cbn; try (intuition lia).
  destruct (Z.eqb_spec x y) as [->|Hne]; cbn; [|intuition lia].
  rewrite IH. intuition lia.
Qed.

Lemma lexNum_gt (a b : list Z) : (0 < lexNum a b)%Z ↔ lexLt b a.
Proof.
  revert b. induction a as [|x a IH]; intros [|y b]; cbn; try (intuition lia).
  destruct (Z.eqb_spec x y) as [->|Hne]; cbn; [|intuition lia].
  rewrite IH. intuition lia.
Qed.

Lemma safeKey_positioned (n : Node.t) : safeKey n → is_Some (positionedKey n).
Proof. unfold safeKey. destruct (positionedKey n); [by eexists|done]. Qed.

Lemma matchLabel_nonEmpty (l : string) (p : string * list ascii) :
  matchLabel l = Some p → JsString.nonEmpty l = true.
Proof. destruct l; [discriminate|done]. Qed.

Lemma compare_positioned (a b : Node.t) (ka kb : list Z) :
  positionedKey a = Some ka → positionedKey b = Some kb →
  cmp a b = lexNum ka kb.
Proof.
  unfold positionedKey, compareFirstOccurrence, labelSortKey.
  destruct (lineOf a) as [la|]; [|done]. destruct (colOf a) as [ca|]; [|done].
  destruct (matchLabel (labelOf a)) as [[ma1 ma2]|] eqn:Ha; [|done].
  destruct (lineOf b) as [lb|]; [|done]. destruct (colOf b) as [cb|]; [|done].
  destruct (matchLabel (labelOf b)) as [[mb1 mb2]|] eqn:Hb; [|done].
  intros [= <-] [= <-].
  rewrite (matchLabel_nonEmpty _ _ Ha), (matchLabel_nonEmpty _ _ Hb).
  cbn. destruct (Z.eqb_spec la lb); cbn; [|done].
  by destruct (Z.eqb_spec ca cb).
Qed.

Lemma positionedKey_set_orderIndex (i : Z) (n : Node.t) :
  positionedKey (Node.set_orderIndex i n) = positionedKey n.
Proof. reflexivity. Qed.

Lemma positioned_sorted (l : list Node.t) :
  Forall (λ n, is_Some (positionedKey n)) l →
  StronglySorted (λ a b, (cmp a b ≤ 0)%Z) (sortBy cmp l).
Proof.
  intros Hall. rewrite Forall_forall in Hall.
  assert (∀ x, x ∈ sortBy cmp l → is_Some (positionedKey x)) as Hall'.
  { intros x Hx. apply Hall. by rewrite <- (sortBy_Permutation cmp l). }
  apply Sorted_restricted_strongly.
  - intros x y z [kx Hx]%Hall' [ky Hy]%Hall' [kz Hz]%Hall'.
    rewrite (compare_positioned x y kx ky), (compare_positioned y z ky kz),
      (compare_positioned x z kx kz) by done.
    apply lexNum_trans.
  - apply sortBy_Sorted. intros x y [kx Hx]%Hall [ky Hy]%Hall.
    rewrite (compare_positioned x y kx ky), (compare_positioned y x ky kx) by done.
    apply lexNum_total.
Qed.

Lemma Sorted_imap {A} (R : relation A) (f : nat → A → A) (l : list A) :
  (∀ i j x y, R x y → R (f i x) (f j y)) →
  Sorted R l → Sorted R (imap f l).
Proof.
  intros Hf Hs. revert f Hf. induction Hs as [|x l Hs IH Hhd]; intros f Hf;
    [constructor|].
  rewrite imap_cons. constructor.
  - apply IH. intros i j. apply Hf.
  - destruct Hhd as [|y l' Hxy]; [constructor|].
    rewrite imap_cons. constructor. by apply Hf.
Qed.

Lemma assignOrderIndex_idem (l : list Node.t) :
  assignOrderIndex (assignOrderIndex l) = assignOrderIndex l.
Proof.
  unfold assignOrderIndex. apply list_eq. intros i.
  rewrite !list_lookup_imap. by destruct (l !! i).
Qed.

(** X10.  On nodes that all have a line, a column and a numbered label
    (numeral, colon, segments), all of them integers a double holds exactly,
    [compareFirstOccurrence] is the lexicographic comparison of the keys
    (line, column, numeral, segments) and never consults the collation: it
    is negative exactly when the first key is lexicographically smaller,
    zero exactly when the keys are equal, positive exactly when the first
    key is larger.  The node list of the processed graph is then in reading
    order: the key of a node is never lexicographically larger than the key
    of a node with a larger order index. *)
Theorem processGraphData_reading_order (g : Graph.data) :
  Forall safeKey (Graph.dnodes g) →
  let ns := Graph.nodes (processGraphData localeCompare g) in
  (∀ a, a ∈ ns → is_Some (positionedKey a)) ∧
  (∀ a b ka kb, a ∈ ns → b ∈ ns →
     positionedKey a = Some ka → positionedKey b = Some kb →
     ((cmp a b < 0)%Z ↔ lexLt ka kb) ∧
     (cmp a b = 0%Z ↔ ka = kb) ∧
     ((0 < cmp a b)%Z ↔ lexLt kb ka)) ∧
  (∀ (a b : Node.t) (p q : Z) ka kb, a ∈ ns → b ∈ ns →
     Node.orderIndex a = Some p → Node.orderIndex b = Some q → (p < q)%Z →
     positionedKey a = Some ka → positionedKey b = Some kb →
     ¬ lexLt kb ka).
Proof.
  cbv zeta. intros Hsafe. cbn [processGraphData Graph.nodes].
  assert (Forall (λ n, is_Some (positionedKey n)) (Graph.dnodes g)) as Hall.
  { eapply Forall_impl; [exact Hsafe|]. apply safeKey_positioned. }
  pose proof (positioned_sorted _ Hall) as Hss.
  assert (∀ n, n ∈ assignOrderIndex (sortBy cmp (Graph.dnodes g)) →
               is_Some (positionedKey n)) as Hpos.
  { intros n Hn. apply list_elem_of_lookup in Hn as [i Hi].
    unfold assignOrderIndex in Hi. rewrite list_lookup_imap in Hi.
    destruct (sortBy _ _ !! i) as [n0|] eqn:H0; simplify_eq/=.
    rewrite positionedKey_set_orderIndex.
    rewrite Forall_forall in Hall. apply Hall.
    rewrite <- (sortBy_Permutation cmp). by eapply list_elem_of_lookup_2. }
  split; [exact Hpos|]. split.
  - intros a b ka kb _ _ Ha Hb.
    rewrite (compare_positioned a b ka kb Ha Hb).
    split; [apply lexNum_lt|]. split; [apply lexNum_zero|apply lexNum_gt].
  - intros a b p q ka kb [i Hi]%list_elem_of_lookup [j Hj]%list_elem_of_lookup
      Hp Hq Hlt Ha Hb.
    rewrite <- lexNum_gt, <- (compare_positioned a b ka kb Ha Hb).
    unfold assignOrderIndex in Hi, Hj. rewrite list_lookup_imap in Hi, Hj.
    destruct (sortBy _ _ !! i) as [a0|] eqn:Ha0; simplify_eq/=.
    destruct (sortBy _ _ !! j) as [b0|] eqn:Hb0; simplify_eq/=.
    change (¬ (0 < cmp a0 b0)%Z).
    assert (i < j) as Hij by lia.
    pose proof (StronglySorted_lookup_lt (λ a b, (cmp a b ≤ 0)%Z) _ i j a0 b0
                  Hss Ha0 Hb0 Hij) as Hle.
    cbn in Hle. lia.
Qed.

(** X11.  On such nodes the recomputation is stable: feeding the node list
    of a processed graph to [processGraphData] again gives the same list,
    order indices included. *)
Theorem processGraphData_nodes_idempotent (g : Graph.data) (edges : list Edge.t) :
  Forall (λ n, is_Some (positionedKey n)) (Graph.dnodes g) →
  let ns := Graph.nodes (processGraphData localeCompare g) in
  Graph.nodes (processGraphData localeCompare (Graph.mkData ns edges)) = ns.
Proof.
  cbv zeta. intros Hall. cbn [processGraphData Graph.nodes Graph.dnodes].
  rewrite (sortBy_of_Sorted cmp (assignOrderIndex _)).
  - apply assignOrderIndex_idem.
  - apply (Sorted_imap (λ a b, (cmp a b ≤ 0)%Z)); [by intros i j x y|].
    apply StronglySorted_Sorted, positioned_sorted, Hall.
Qed.
End PositionedOrder.

Lemma graphPositioned_ok :
  Forall (λ n, is_Some (positionedKey n)) (Graph.dnodes graphPositioned).
Proof. repeat constructor; by eexists. Qed.

Lemma graphPositioned_safe : Forall safeKey (Graph.dnodes graphPositioned).
Proof. repeat constructor; vm_compute; reflexivity. Qed.

Lemma processGraphData_reading_order_witness :
  Forall safeKey (Graph.dnodes graphPositioned) ∧
  positionedKey cycleA = Some [1; 5; 1; 1]%Z ∧
  positionedKey cycleB = Some [1; 3; 1; 3]%Z ∧
  ¬ lexLt [1; 5; 1; 1]%Z [1; 3; 1; 3]%Z.
Proof.
  split; [exact graphPositioned_safe|]. split; [reflexivity|]. split; [reflexivity|].
  refine (proj2 (proj2 (processGraphData_reading_order codeUnitCompare graphPositioned
                          graphPositioned_safe))
            (Node.set_orderIndex 1 cycleB) (Node.set_orderIndex 2 cycleA) 1%Z 2%Z
            _ _ _ _ _ _ _ _ _).
  - apply (list_elem_of_lookup_2 _ 0). reflexivity.
  - apply (list_elem_of_lookup_2 _ 1). reflexivity.
  - reflexivity.
  - reflexivity.
  - lia.
  - reflexivity.
  - reflexivity.
Defined.

Lemma processGraphData_nodes_idempotent_witness :
  Graph.nodes
    (processGraphData codeUnitCompare
       (Graph.mkData (Graph.nodes (processGraphData codeUnitCompare graphPositioned)) []))
  = Graph.nodes (processGraphData codeUnitCompare graphPositioned).
Proof.
  exact (processGraphData_nodes_idempotent codeUnitCompare graphPositioned []
           graphPositioned_ok).
Defined.

(** ** Labels of the numbered form *)

Lemma chars_append (s t : string) :
  JsString.chars (s +:+ t) = JsString.chars s ++ JsString.chars t.
Proof.
  unfold JsString.chars. induction s as [|c s IH]; [done|].
  change (c :: String.list_ascii_of_string (s +:+ t)
          = c :: (String.list_ascii_of_string s ++ String.list_ascii_of_string t)).
  by rewrite IH.
Qed.

Lemma ofChars_chars (s : string) : JsString.ofChars (JsString.chars s) = s.
Proof. apply String.string_of_list_ascii_of_string. Qed.

Lemma chars_ofChars (cs : list ascii) : JsString.chars (JsString.ofChars cs) = cs.
Proof. apply String.list_ascii_of_string_of_list_ascii. Qed.

Lemma isLabelChar_plain (c : ascii) :
  isLabelChar c = true →
  JsString.isSpace c = false ∧ JsString.isLineTerminator c = false.
Proof. destruct c as [[] [] [] [] [] [] [] []]; vm_compute; intuition congruence. Qed.

Lemma roman_not_digit (c : ascii) :
  isRomanLetter c = true → JsString.isDigit c = false ∧ Ascii.eqb c ":" = false.
Proof. destruct c as [[] [] [] [] [] [] [] []]; vm_compute; intuition congruence. Qed.

Lemma dropSpaces_plain (cs : list ascii) :
  Forall (λ c, isLabelChar c = true) cs → JsString.dropSpaces cs = cs.
Proof.
  destruct 1 as [|c cs Hc _]; [done|].
  cbn. by rewrite (proj1 (isLabelChar_plain c Hc)).
Qed.

Lemma trim_plain (s : string) :
  Forall (λ c, isLabelChar c = true) (JsString.chars s) → JsString.trim s = s.
Proof.
  intros H. unfold JsString.trim.
  rewrite (dropSpaces_plain _ H), dropSpaces_plain, rev_involutive by (by apply Forall_rev).
  apply ofChars_chars.
Qed.

Lemma spanRoman_app (rs k : list ascii) :
  Forall (λ c, isRomanLetter c = true) rs →
  spanRoman (rs ++ ":"%char :: k) = (rs, ":"%char :: k).
Proof.
  induction 1 as [|c rs Hc _ IH]; [done|].
  cbn [app spanRoman]. by rewrite Hc, IH.
Qed.

Lemma pretty_N_char_digit (d : N) :
  (d < 10)%N →
  JsString.isDigit (pretty_N_char d) = true
  ∧ JsString.digitValue (pretty_N_char d) = Z.of_N d.
Proof.
  intros Hd.
  assert (d = 0 ∨ d = 1 ∨ d = 2 ∨ d = 3 ∨ d = 4 ∨ d = 5 ∨ d = 6 ∨ d = 7
          ∨ d = 8 ∨ d = 9)%N as H by lia.
  repeat destruct H as [->|H]; try subst d; by vm_compute.
Qed.

Lemma pretty_N_go_digits (x : N) :
  ∃ ds, (∀ s, JsString.chars (pretty_N_go x s) = ds ++ JsString.chars s) ∧
        Forall (λ c, JsString.isDigit c = true) ds ∧
        ((0 < x)%N → ds ≠ []) ∧
        ∀ v, readDigits v ds = (v * 10 ^ Z.of_nat (length ds) + Z.of_N x)%Z.
Proof.
  induction (N.lt_wf_0 x) as [x _ IH].
  destruct (decide (x = 0)%N) as [->|Hx].
  { exists []. repeat split; try done. intros v. cbn. lia. }
  destruct (IH (x `div` 10)%N) as (ds & Hds & Hdig & _ & Hval).
  { apply N.div_lt; lia. }
  destruct (pretty_N_char_digit (x `mod` 10)%N) as [Hd Hv].
  { apply N.mod_lt. lia. }
  exists (ds ++ [pretty_N_char (x `mod` 10)]). repeat split.
  - intros s. rewrite pretty_N_go_step by lia. rewrite Hds. cbn.
    by rewrite <- app_assoc.
  - apply Forall_app. split; [done|]. by constructor.
  - intros _. by destruct ds.
  - intros v. unfold readDigits in *. rewrite foldl_app. cbn [foldl].
    rewrite Hval, Hv, length_app. cbn [length].
    rewrite Nat2Z.inj_add, Z.pow_add_r by lia.
    pose proof (N.div_mod x 10). lia.
Qed.

Lemma pretty_N_digits (n : N) :
  ∃ c ds, JsString.chars (pretty n) = c :: ds ∧
          Forall (λ c, JsString.isDigit c = true) (c :: ds) ∧
          readDigits 0 (c :: ds) = Z.of_N n.
Proof.
  unfold pretty, pretty_N. case_decide as Hn.
  - subst n. exists "0"%char, []. split; [reflexivity|].
    split; [by repeat constructor|reflexivity].
  - destruct (pretty_N_go_digits n) as (ds & Hds & Hdig & Hne & Hval).
    destruct ds as [|c ds]; [exfalso; apply Hne; [lia|done]|].
    exists c, ds. rewrite Hds, app_nil_r. split; [done|]. split; [done|].
    rewrite Hval. lia.
Qed.

Lemma digitRuns_digits (ds k : list ascii) (cur : option Z) (c : ascii) :
  Forall (λ c, JsString.isDigit c = true) (c :: ds) →
  digitRuns ((c :: ds) ++ k) cur
  = digitRuns k (Some (readDigits (default 0 cur) (c :: ds)))%Z.
Proof.
  revert c cur. induction ds as [|d ds IH]; intros c cur Hall;
    inversion_clear Hall as [|? ? Hc Hds]; cbn [app digitRuns]; rewrite Hc.
  - done.
  - apply (IH d (Some _) Hds).
Qed.

Lemma digitRuns_segments (ns : list N) :
  digitRuns (JsString.chars (formatSegments ns)) None = Z.of_N <$> ns
  ∧ Forall (λ c, isLabelChar c = true) (JsString.chars (formatSegments ns)).
Proof.
  assert (∀ cs, Forall (λ c, JsString.isDigit c = true) cs →
                Forall (λ c, isLabelChar c = true) cs) as Hlab.
  { intros cs Hcs. eapply Forall_impl; [exact Hcs|]. intros c Hc.
    unfold isLabelChar. rewrite Hc. by rewrite !orb_true_r. }
  induction ns as [|n ns [IH IHc]]; [by split|].
  destruct (pretty_N_digits n) as (c & ds & Hch & Hdig & Hval).
  destruct ns as [|m ns].
  - cbn [formatSegments]. rewrite Hch. split; [|by apply Hlab].
    rewrite <- (app_nil_r (c :: ds)), digitRuns_digits by done.
    cbn [digitRuns default]. by rewrite Hval.
  - change (formatSegments (n :: m :: ns))
      with (pretty n +:+ "-" +:+ formatSegments (m :: ns)).
    rewrite !chars_append, Hch. split.
    + rewrite digitRuns_digits by done. cbn [default].
      cbn [JsString.chars String.list_ascii_of_string app digitRuns].
      change (JsString.isDigit "-") with false. cbn iota.
      rewrite Hval. fold (JsString.chars (formatSegments (m :: ns))).
      by rewrite IH.
    + apply Forall_app. split; [by apply Hlab|].
      apply Forall_app. split; [by repeat constructor|done].
Qed.

(** X3.  Reading back a label of the numbered form.  For a numeral made of
    roman letters (either case) and any list of natural numbers below 2^53
    (which a double holds exactly), the key of the label numeral, colon,
    numbers joined by dashes is the value of the numeral followed by the
    numbers. *)
Theorem labelSortKey_formatLabel (roman : string) (ns : list N) :
  isNumeralText roman = true →
  Forall (λ n, safeInteger (Z.of_N n)) ns →
  labelSortKey (formatLabel roman ns)
  = KNum (romanToInt roman) :: (KNum <$> (Z.of_N <$> ns)).
Proof.
  unfold isNumeralText. intros [Hne Hrom]%andb_true_iff _.
  rewrite forallb_forall in Hrom.
  assert (Forall (λ c, isRomanLetter c = true) (JsString.chars roman)) as Hr.
  { apply Forall_forall. intros c Hc. apply Hrom. by apply list_elem_of_In. }
  destruct (digitRuns_segments ns) as [Hruns Hseg].
  assert (JsString.chars (formatLabel roman ns)
          = JsString.chars roman ++ ":"%char :: JsString.chars (formatSegments ns)) as Hch.
  { unfold formatLabel. by rewrite !chars_append. }
  assert (Forall (λ c, isLabelChar c = true) (JsString.chars (formatLabel roman ns))) as Hall.
  { rewrite Hch. apply Forall_app. split.
    - eapply Forall_impl; [exact Hr|]. intros c Hc. unfold isLabelChar. by rewrite Hc.
    - by constructor. }
  unfold labelSortKey, matchLabel. rewrite (trim_plain _ Hall), Hch, spanRoman_app by done.
  destruct (JsString.chars roman) as [|r0 rs] eqn:Hrs.
  { destruct roman; [done|discriminate Hrs]. }
  cbn [JsString.dropSpaces]. change (JsString.isSpace ":") with false. cbn iota.
  change (Ascii.eqb ":" ":") with true. cbn [andb].
  assert (forallb (λ x, negb (JsString.isLineTerminator x))
            (JsString.chars (formatSegments ns)) = true) as ->.
  { apply forallb_forall. intros c Hc. apply list_elem_of_In in Hc.
    rewrite Forall_forall in Hseg.
    by rewrite (proj2 (isLabelChar_plain c (Hseg c Hc))). }
  rewrite Hruns, <- Hrs, ofChars_chars. done.
Qed.

Lemma labelSortKey_formatLabel_witness :
  labelSortKey (formatLabel "viii" [3; 2; 3]%N)
  = KNum (romanToInt "viii") :: (KNum <$> (Z.of_N <$> [3; 2; 3]%N)).
Proof.
  apply labelSortKey_formatLabel; [reflexivity|].
  repeat constructor; vm_compute; reflexivity.
Defined.

(** ** Trimming *)

Lemma dropSpaces_suffix (cs : list ascii) :
  ∃ p, cs = p ++ JsString.dropSpaces cs.
Proof.
  induction cs as [|c cs [p Hp]]; [by exists []|].
  cbn. destruct (JsString.isSpace c); [|by exists []].
  exists (c :: p). cbn. by rewrite <- Hp.
Qed.

Lemma dropSpaces_head (cs : list ascii) :
  noLeadingSpace (JsString.dropSpaces cs).
Proof.
  induction cs as [|c cs IH]; [done|].
  cbn. by destruct (JsString.isSpace c) eqn:Hc; [|cbn; rewrite Hc].
Qed.

Lemma dropSpaces_fixed (cs : list ascii) :
  noLeadingSpace cs → JsString.dropSpaces cs = cs.
Proof. destruct cs as [|c cs]; [done|]. cbn. intros H. by rewrite H. Qed.

Lemma noLeadingSpace_prefix (xs ys : list ascii) :
  noLeadingSpace (xs ++ ys) → noLeadingSpace xs.
Proof. by destruct xs. Qed.

Lemma trim_idempotent (s : string) : JsString.trim (JsString.trim s) = JsString.trim s.
Proof.
  unfold JsString.trim at 1 2. rewrite chars_ofChars.
  set (a := JsString.dropSpaces (JsString.chars s)).
  set (b := JsString.dropSpaces (rev a)).
  assert (noLeadingSpace (rev b)) as Hrb.
  { destruct (dropSpaces_suffix (rev a)) as [p Hp]. fold b in Hp.
    apply (noLeadingSpace_prefix _ (rev p)). rewrite <- rev_app_distr, <- Hp.
    rewrite rev_involutive. apply dropSpaces_head. }
  rewrite (dropSpaces_fixed _ Hrb), rev_involutive.
  rewrite (dropSpaces_fixed b) by apply dropSpaces_head.
  reflexivity.
Qed.

(** X21.  [labelSortKey] sees a label only through its trimmed form: white
    space around a label never changes its key, and the second trim that
    [compareFirstOccurrence] causes is harmless. *)
Theorem labelSortKey_trim (label : string) :
  labelSortKey (JsString.trim label) = labelSortKey label
  ∧ JsString.trim (JsString.trim label) = JsString.trim label.
Proof.
  split; [|apply trim_idempotent].
  unfold labelSortKey, matchLabel. by rewrite trim_idempotent.
Qed.

(** ** Ties *)

Lemma compareLex_refl (localeCompare : string → string → Z) (k : list KeyPart) :
  compareLex localeCompare k k = 0%Z.
Proof.
  induction k as [|v k IH]; [done|]. cbn [compareLex].
  destruct v as [x|s].
  - by rewrite Z.eqb_refl.
  - by rewrite String.eqb_refl.
Qed.

(** X22.  Two nodes with the same line and column (or both without) and the
    same non-empty trimmed label compare equal whatever their ids: the id is
    consulted only when both labels are empty.  The sort being stable, such
    nodes keep the order they arrived in. *)
Theorem compareFirstOccurrence_label_tie
    (localeCompare : string → string → Z) (a b : Node.t) :
  lineOf a = lineOf b → colOf a = colOf b →
  labelOf a = labelOf b → JsString.nonEmpty (labelOf a) = true →
  compareFirstOccurrence localeCompare a b = 0%Z ∧
  sortBy (compareFirstOccurrence localeCompare) [a; b] = [a; b] ∧
  sortBy (compareFirstOccurrence localeCompare) [b; a] = [b; a].
Proof.
  intros Hl Hc Hlab Hne.
  assert (∀ x y, lineOf x = lineOf y → colOf x = colOf y →
                 labelOf x = labelOf y → JsString.nonEmpty (labelOf x) = true →
                 compareFirstOccurrence localeCompare x y = 0%Z) as Htie.
  { clear. intros x y Hl Hc Hlab Hne. unfold compareFirstOccurrence, bothDiffer.
    rewrite <- Hl, <- Hc, <- Hlab, Hne. cbv zeta.
    destruct (lineOf x) as [lx|]; cbn [isNull negb andb];
      rewrite ?Z.eqb_refl; cbn [negb];
      destruct (colOf x) as [cx|]; rewrite ?Z.eqb_refl; cbn [negb andb];
      apply compareLex_refl. }
  split; [by apply Htie|].
  split; cbn; [rewrite (Htie a b)|rewrite (Htie b a)]; try done.
  by rewrite <- Hlab.
Qed.

Lemma compareFirstOccurrence_label_tie_witness :
  compareFirstOccurrence codeUnitCompare tieA tieB = 0%Z ∧
  sortBy (compareFirstOccurrence codeUnitCompare) [tieA; tieB] = [tieA; tieB] ∧
  sortBy (compareFirstOccurrence codeUnitCompare) [tieB; tieA] = [tieB; tieA].
Proof. by apply compareFirstOccurrence_label_tie. Defined.

(** ** Edge colours *)

Lemma fold_setProperty_lookup (f : string → string) (l : list string) (t : string) :
  foldl (λ acc u, setProperty u (f u) acc) (∅ : gmap string string) l !! t
  = if bool_decide (t ∈ l ∧ t ≠ "__proto__") then Some (f t) else None.
Proof.
  induction l as [|u l IH] using rev_ind.
  - cbn. rewrite bool_decide_eq_false_2; [done|]. rewrite elem_of_nil. tauto.
  - rewrite foldl_app. cbn [foldl].
    destruct (decide (u = t)) as [->|Hne].
    + destruct (decide (t = "__proto__")) as [->|Hp].
      * rewrite setProperty_proto, IH.
        rewrite !bool_decide_eq_false_2; [done|tauto|tauto].
      * rewrite setProperty_lookup, bool_decide_eq_true_2; [done| |done].
        split; [|done]. apply elem_of_app. right. apply list_elem_of_here.
    + rewrite setProperty_lookup_ne, IH by done.
      rewrite (bool_decide_ext (t ∈ l ++ [u] ∧ t ≠ "__proto__")
                 (t ∈ l ∧ t ≠ "__proto__")); [done|].
      rewrite elem_of_app, list_elem_of_singleton.
      split; [|tauto]. intros [[?|?] ?]; [done|congruence].
Qed.

(** X23.  [edgeColors] has an entry for a tag other than [__proto__] exactly
    when some normalized edge carries it (an edge without tag counts as
    internal), and the entry is the colour the colour function gives that
    tag.  The tag [__proto__] never gets an entry: it names the prototype
    accessor of the colour object and not a property of it. *)
Theorem edgeColors_lookup (colorOf : string → string) (edges : list Edge.t) (t : string) :
  (t ≠ "__proto__" → (∃ e, e ∈ edges ∧ depOf e = t) →
     edgeColors colorOf edges !! t = Some (colorOf t)) ∧
  ((¬ ∃ e, e ∈ edges ∧ depOf e = t) → edgeColors colorOf edges !! t = None) ∧
  edgeColors colorOf edges !! "__proto__" = None.
Proof.
  unfold edgeColors. rewrite !fold_setProperty_lookup.
  destruct (edgeTypes_spec edges) as [_ Hel].
  split; [|split].
  - intros Hp H. rewrite bool_decide_eq_true_2; [done|]. split; [by apply Hel|done].
  - intros H. rewrite bool_decide_eq_false_2; [done|]. rewrite Hel. tauto.
  - rewrite bool_decide_eq_false_2; [done|]. tauto.
Qed.

Lemma edgeColors_lookup_witness :
  edgeColors (λ t, "#" +:+ t) [edgeBA; danglingEdge] !! "used_in" = Some "#used_in".
Proof.
  refine (proj1 (edgeColors_lookup (λ t, "#" +:+ t) [edgeBA; danglingEdge] "used_in") _ _).
  - discriminate.
  - exists edgeBA. split; [apply list_elem_of_here|reflexivity].
Defined.
